(** * probe-engine: experiment lifecycle, resource cache and tor collector

    A shallow embedding of three parts of the engine:

    - [Experiment]  : experiment/experiment.go, the report lifecycle
                      (OpenReport, SubmitMeasurement, CloseReport);
    - [Resources]   : resources/resources.go, EnsureForSingleResource;
    - [Tor]         : experiment/tor/tor.go, measure, measureTargets and
                      measureSingleTarget, as an interleaving semantics of
                      the submitting goroutine and its workers.

    Go's [error] is modelled by [option string]: [None] is [nil] and
    [Some d] is an error whose [Error()] text is [d]. *)

From Stdlib Require Import ZArith QArith Lia.
From stdpp Require Import base option list strings gmap.

Local Open Scope Z_scope.

Definition error := option string.

(* ===================================================================== *)
(** * experiment/experiment.go *)
(* ===================================================================== *)

Module Experiment.

(** collector.Report, as far as the experiment reads it. *)
Record Report := mkReport { ID : string }.

(** The calls that reach the collector. *)
Inductive RemoteCall (Measurement : Type) :=
| CallOpenReport (testName testVersion : string)
| CallSubmitMeasurement (reportID : string) (m : Measurement)
| CallCloseReport (reportID : string).
Arguments CallOpenReport {Measurement}.
Arguments CallSubmitMeasurement {Measurement}.
Arguments CallCloseReport {Measurement}.

(** The fields of [Experiment] that the lifecycle methods read or write;
    [RReport] is the field Report, and [None] is the nil pointer. *)
Record Runner := mkRunner {
  RReport : option Report;
  TestName : string;
  TestStartTime : string;
  TestVersion : string
}.

Definition set_Report (r : option Report) (e : Runner) : Runner :=
  {| RReport := r; TestName := TestName e;
     TestStartTime := TestStartTime e; TestVersion := TestVersion e |}.

Section Lifecycle.

(** [Ctx] is context.Context and [Measurement] is model.Measurement; the
    lifecycle only passes them on. *)
Context {Ctx Measurement : Type}.

Local Abbreviation Call := (RemoteCall Measurement).

(** The collaborators. Each answer may depend on the calls made so far. *)
Variable session_OpenReport :
  list Call -> Ctx -> string -> string -> option Report * error.
Variable report_SubmitMeasurement :
  list Call -> Ctx -> Report -> Measurement -> error.
Variable report_Close : list Call -> Ctx -> Report -> error.

(** The state threaded through a method: the receiver and the log of
    remote calls, oldest first. *)
Record World := mkWorld { runner : Runner; calls : list Call }.

Definition M (A : Type) : Type := World -> A * World.

Definition ret {A} (a : A) : M A := fun w => (a, w).
Definition bind {A B} (m : M A) (k : A -> M B) : M B :=
  fun w => let '(a, w') := m w in k a w'.

Notation "'let*' x ':=' m 'in' k" := (bind m (fun x => k))
  (at level 10, x name, m at level 100, k at level 200).
Notation "'run' m 'in' k" := (bind m (fun _ => k))
  (at level 10, m at level 100, k at level 200).

Definition getReport : M (option Report) := fun w => (RReport (runner w), w).
Definition getRunner : M Runner := fun w => (runner w, w).
Definition putReport (r : option Report) : M unit :=
  fun w => (tt, {| runner := set_Report r (runner w); calls := calls w |}).

(** One remote call: the answer is computed from the log before the call,
    then the call is appended to it. *)
Definition remote {A} (c : Call) (answer : list Call -> A) : M A :=
  fun w => (answer (calls w), {| runner := runner w; calls := calls w ++ [c] |}).

(** func (e *Experiment) OpenReport(ctx) (err error) *)
Definition OpenReport (ctx : Ctx) : M error :=
  let* r := getReport in
  match r with
  | Some _ => ret None (* already open *)
  | None =>
      let* e := getRunner in
      let* res := remote (CallOpenReport (TestName e) (TestVersion e))
               (fun log => session_OpenReport log ctx (TestName e) (TestVersion e)) in
      run putReport (fst res) in
      ret (snd res)
  end.

(** func (e *Experiment) ReportID() string *)
Definition ReportID : M string :=
  let* r := getReport in
  match r with
  | None => ret ""
  | Some rep => ret (ID rep)
  end.

(** func (e *Experiment) SubmitMeasurement(ctx, measurement) error *)
Definition SubmitMeasurement (ctx : Ctx) (measurement : Measurement) : M error :=
  let* r := getReport in
  match r with
  | None => ret (Some "Report is not open")
  | Some rep =>
      remote (CallSubmitMeasurement (ID rep) measurement)
        (fun log => report_SubmitMeasurement log ctx rep measurement)
  end.

(** func (e *Experiment) CloseReport(ctx) (err error) *)
Definition CloseReport (ctx : Ctx) : M error :=
  let* r := getReport in
  match r with
  | Some rep =>
      let* err := remote (CallCloseReport (ID rep))
               (fun log => report_Close log ctx rep) in
      run putReport None in
      ret err
  | None => ret None
  end.

(** The lifecycle operations a caller can issue, and their effect. *)
Inductive Op :=
| OpOpen (ctx : Ctx)
| OpSubmit (ctx : Ctx) (m : Measurement)
| OpClose (ctx : Ctx)
| OpReportID.

Definition run_op (o : Op) (w : World) : World :=
  match o with
  | OpOpen ctx => snd (OpenReport ctx w)
  | OpSubmit ctx m => snd (SubmitMeasurement ctx m w)
  | OpClose ctx => snd (CloseReport ctx w)
  | OpReportID => snd (ReportID w)
  end.

(** The number of remote open calls in a log. *)
Definition is_open_call (c : Call) : bool :=
  match c with CallOpenReport _ _ => true | _ => false end.
Definition open_calls (l : list Call) : nat := length (filter is_open_call l).

(** C4. With a report open, OpenReport does nothing, calls nothing and keeps
    the handle (so two opens in a row make exactly one remote open call and
    leave the first report's ID in place); with no report open, CloseReport
    calls nothing and returns nil; CloseReport on an open report makes one
    remote close call, clears the handle whatever the remote answers, and
    returns that answer; and no operation takes an open handle to a
    different open handle. *)
Theorem report_lifecycle :
  (forall ctx w rep, RReport (runner w) = Some rep ->
     OpenReport ctx w = (None, w)) /\
  (forall ctx ctx' w rep,
     RReport (runner w) = None ->
     fst (session_OpenReport (calls w) ctx (TestName (runner w))
            (TestVersion (runner w))) = Some rep ->
     let w1 := snd (OpenReport ctx w) in
     let w2 := snd (OpenReport ctx' w1) in
     calls w1 = calls w ++ [CallOpenReport (TestName (runner w)) (TestVersion (runner w))] /\
     RReport (runner w1) = Some rep /\
     w2 = w1 /\
     open_calls (calls w2) = S (open_calls (calls w)) /\
     fst (ReportID w2) = ID rep) /\
  (forall ctx w, RReport (runner w) = None ->
     CloseReport ctx w = (None, w)) /\
  (forall ctx w rep, RReport (runner w) = Some rep ->
     let '(err, w') := CloseReport ctx w in
     err = report_Close (calls w) ctx rep /\
     RReport (runner w') = None /\
     calls w' = calls w ++ [CallCloseReport (ID rep)]) /\
  (forall o w rep rep',
     RReport (runner w) = Some rep ->
     RReport (runner (run_op o w)) = Some rep' -> rep' = rep).
Proof.
  assert (Hopen : forall ctx w rep, RReport (runner w) = Some rep ->
                    OpenReport ctx w = (None, w)).
  { intros ctx w rep H. unfold OpenReport, bind, getReport, ret. by rewrite H. }
  split; [exact Hopen|]. split; [|split; [|split]].
  - intros ctx ctx' w rep Hnone Hans w1 w2.
    assert (Hc1 : calls w1 = calls w ++
              [CallOpenReport (TestName (runner w)) (TestVersion (runner w))]).
    { subst w1. unfold OpenReport, bind, getReport, getRunner, remote, putReport, ret.
      by rewrite Hnone. }
    assert (Hr1 : RReport (runner w1) = Some rep).
    { subst w1. unfold OpenReport, bind, getReport, getRunner, remote, putReport, ret.
      rewrite Hnone. simpl. exact Hans. }
    assert (Hw2 : w2 = w1).
    { subst w2. by rewrite (Hopen ctx' w1 rep Hr1). }
    split; [exact Hc1|]. split; [exact Hr1|]. split; [exact Hw2|]. split.
    + rewrite Hw2, Hc1. unfold open_calls.
      rewrite filter_app, length_app. simpl. lia.
    + rewrite Hw2. unfold ReportID, bind, getReport, ret. by rewrite Hr1.
  - intros ctx w H. unfold CloseReport, bind, getReport, ret. by rewrite H.
  - intros ctx w rep H.
    unfold CloseReport, bind, getReport, remote, putReport, ret. rewrite H.
    simpl. done.
  - intros o w rep rep' H H'. destruct o as [ctx|ctx m|ctx|]; simpl in H'.
    + rewrite (Hopen ctx w rep H) in H'. simpl in H'. congruence.
    + unfold SubmitMeasurement, bind, getReport, remote, ret in H'.
      rewrite H in H'. simpl in H'. congruence.
    + unfold CloseReport, bind, getReport, remote, putReport, ret in H'.
      rewrite H in H'. simpl in H'. discriminate.
    + unfold ReportID, bind, getReport, ret in H'.
      rewrite H in H'. simpl in H'. congruence.
Qed.

(** C5. With no report open, SubmitMeasurement returns the error
    "Report is not open", makes no remote call and leaves the experiment
    as it was. *)
Theorem submit_without_report :
  forall ctx m w, RReport (runner w) = None ->
    SubmitMeasurement ctx m w = (Some "Report is not open", w).
Proof.
  intros ctx m w H. unfold SubmitMeasurement, bind, getReport, ret.
  by rewrite H.
Qed.

(** ** A new experiment *)

(** func New(sess, testName, testVersion, measure) *Experiment; [now] is
    what formatTimeNowUTC() returns. The report is the zero value, nil. *)
Definition New (testName testVersion now : string) : Runner :=
  {| RReport := None;
     TestName := testName;
     TestStartTime := now;
     TestVersion := testVersion |}.

(** An experiment made by New has no report: its report ID is empty, a
    submit is refused and a close does nothing, all without a remote
    call; and its first OpenReport asks the collector for a report under
    exactly the test name and version New was given, and keeps what the
    collector hands back. *)
Theorem new_experiment_has_no_report :
  forall testName testVersion now ctx m,
    let w := {| runner := New testName testVersion now; calls := [] |} in
    fst (ReportID w) = "" /\
    SubmitMeasurement ctx m w = (Some "Report is not open", w) /\
    CloseReport ctx w = (None, w) /\
    calls (snd (OpenReport ctx w)) = [CallOpenReport testName testVersion] /\
    RReport (runner (snd (OpenReport ctx w)))
      = fst (session_OpenReport [] ctx testName testVersion) /\
    fst (OpenReport ctx w) = snd (session_OpenReport [] ctx testName testVersion).
Proof. intros testName testVersion now ctx m w. repeat split. Qed.

(** ** Sequences of lifecycle operations *)

Definition is_close_call (c : Call) : bool :=
  match c with CallCloseReport _ => true | _ => false end.
Definition is_submit_call (c : Call) : bool :=
  match c with CallSubmitMeasurement _ _ => true | _ => false end.
Definition close_calls (l : list Call) : nat := length (filter is_close_call l).
Definition submit_calls (l : list Call) : nat := length (filter is_submit_call l).

(** The operations of a caller, one after the other. *)
Definition run_ops (os : list Op) (w : World) : World :=
  foldl (fun w o => run_op o w) w os.

(** The remote closes, plus the report still open, never exceed the
    remote opens; and nothing is submitted before a remote open. *)
Definition balanced (w : World) : Prop :=
  (close_calls (calls w) + (if RReport (runner w) is Some _ then 1 else 0)
     <= open_calls (calls w))%nat /\
  ((0 < submit_calls (calls w))%nat -> (0 < open_calls (calls w))%nat).

Lemma count_snoc (f : Call -> bool) (l : list Call) (c : Call) :
  length (filter f (l ++ [c])) = (length (filter f l) + if f c then 1 else 0)%nat.
Proof.
  rewrite filter_app, length_app. f_equal.
  destruct (f c) eqn:E.
  - rewrite filter_cons_True; [done|]. by apply Is_true_true.
  - rewrite filter_cons_False; [done|]. by apply Is_true_false.
Qed.

Lemma run_op_balanced (o : Op) (w : World) : balanced w -> balanced (run_op o w).
Proof.
  unfold balanced, close_calls, open_calls, submit_calls.
  intros [Hb Hs].
  destruct o as [ctx|ctx m|ctx|]; simpl;
    unfold OpenReport, SubmitMeasurement, CloseReport, ReportID,
      bind, getReport, getRunner, remote, putReport, ret;
    destruct (RReport (runner w)) as [rep|] eqn:Hr; simpl;
    rewrite ?Hr, ?count_snoc; simpl; try (split; lia).
  destruct (session_OpenReport _ _ _ _).1; split; lia.
Qed.

Lemma run_ops_balanced (os : list Op) : forall w, balanced w -> balanced (run_ops os w).
Proof.
  induction os as [|o os IH]; intros w Hb; [done|].
  simpl. apply IH. by apply run_op_balanced.
Qed.

(** Whatever a caller does with an experiment that starts without a
    report and without history, the collector is never asked to close
    more reports than it was asked to open, a report that is still open
    has not been closed remotely, and no measurement reaches the
    collector before a remote open. *)
Theorem lifecycle_calls_balanced :
  forall os w, RReport (runner w) = None -> calls w = [] ->
    let w' := run_ops os w in
    (close_calls (calls w') + (if RReport (runner w') is Some _ then 1 else 0)
       <= open_calls (calls w'))%nat /\
    ((0 < submit_calls (calls w'))%nat -> (0 < open_calls (calls w'))%nat).
Proof.
  intros os w Hr Hc. apply run_ops_balanced.
  unfold balanced, close_calls, open_calls, submit_calls.
  rewrite Hr, Hc. simpl. split; lia.
Qed.

Lemma run_ops_app (os1 os2 : list Op) (w : World) :
  run_ops (os1 ++ os2) w = run_ops os2 (run_ops os1 w).
Proof. unfold run_ops. by rewrite foldl_app. Qed.

Lemma run_ops_cons (o : Op) (os : list Op) (w : World) :
  run_ops (o :: os) w = run_ops os (run_op o w).
Proof. reflexivity. Qed.

Lemma run_submits ctx rep (ms : list Measurement) : forall w,
  RReport (runner w) = Some rep ->
  runner (run_ops (OpSubmit ctx <$> ms) w) = runner w /\
  calls (run_ops (OpSubmit ctx <$> ms) w)
    = calls w ++ (CallSubmitMeasurement (ID rep) <$> ms).
Proof.
  induction ms as [|m ms IH]; intros w Hr.
  - rewrite !fmap_nil, app_nil_r. done.
  - rewrite !fmap_cons, run_ops_cons.
    assert (Hstep : run_op (OpSubmit ctx m) w =
              {| runner := runner w;
                 calls := calls w ++ [CallSubmitMeasurement (ID rep) m] |}).
    { simpl. unfold SubmitMeasurement, bind, getReport, remote. by rewrite Hr. }
    rewrite Hstep.
    destruct (IH {| runner := runner w;
                    calls := calls w ++ [CallSubmitMeasurement (ID rep) m] |} Hr)
      as [H1 H2].
    rewrite H1, H2. simpl. by rewrite <- app_assoc.
Qed.

(** A whole session: open, submit any number of measurements, close. When
    the collector grants the report, it sees exactly the open, one submit
    per measurement in order, and the close, all submits and the close
    carrying the ID of the granted report, whatever it answers to them;
    and the experiment ends without a report. *)
Theorem report_session :
  forall ctx (ms : list Measurement) w rep,
    RReport (runner w) = None ->
    fst (session_OpenReport (calls w) ctx (TestName (runner w))
           (TestVersion (runner w))) = Some rep ->
    let w' := run_ops (OpOpen ctx :: (OpSubmit ctx <$> ms) ++ [OpClose ctx]) w in
    calls w' = calls w
                 ++ [CallOpenReport (TestName (runner w)) (TestVersion (runner w))]
                 ++ (CallSubmitMeasurement (ID rep) <$> ms)
                 ++ [CallCloseReport (ID rep)] /\
    RReport (runner w') = None /\
    fst (ReportID w') = "".
Proof.
  intros ctx ms w rep Hr Hans w'. subst w'.
  rewrite run_ops_cons, run_ops_app.
  set (w1 := run_op (OpOpen ctx) w).
  assert (H1 : RReport (runner w1) = Some rep /\
               calls w1 = calls w ++
                 [CallOpenReport (TestName (runner w)) (TestVersion (runner w))]).
  { subst w1. simpl.
    unfold OpenReport, bind, getReport, getRunner, remote, putReport, ret.
    rewrite Hr. simpl. by rewrite Hans. }
  destruct H1 as [Hr1 Hc1].
  destruct (run_submits ctx rep ms w1 Hr1) as [Hr2 Hc2].
  set (w2 := run_ops (OpSubmit ctx <$> ms) w1) in *.
  rewrite run_ops_cons. simpl.
  unfold CloseReport, ReportID, bind, getReport, remote, putReport, ret.
  rewrite Hr2, Hr1. simpl. rewrite Hc2, Hc1, <- !app_assoc. done.
Qed.

(** After CloseReport, whatever state it was called in and whatever the
    collector answered, the experiment has no report: ReportID is empty
    and SubmitMeasurement is refused without a remote call. *)
Theorem closed_after_close :
  forall ctx ctx' m w,
    let w1 := snd (CloseReport ctx w) in
    RReport (runner w1) = None /\
    fst (ReportID w1) = "" /\
    SubmitMeasurement ctx' m w1 = (Some "Report is not open", w1).
Proof.
  intros ctx ctx' m w w1.
  assert (Hr : RReport (runner w1) = None).
  { subst w1. unfold CloseReport, bind, getReport, remote, putReport, ret.
    by destruct (RReport (runner w)) eqn:E. }
  split; [exact Hr|]. split.
  - unfold ReportID, bind, getReport, ret. by rewrite Hr.
  - unfold SubmitMeasurement, bind, getReport, ret. by rewrite Hr.
Qed.

End Lifecycle.

(** ** A collector that opens a report and fails to close it *)

Definition sample_report : Report := mkReport "20191112T101500Z_AS30722_tor".

Definition sample_OpenReport (log : list (RemoteCall unit)) (ctx : unit)
    (name version : string) : option Report * error :=
  (Some sample_report, None).
Definition sample_Submit (log : list (RemoteCall unit)) (ctx : unit)
    (r : Report) (m : unit) : error := None.
Definition sample_Close (log : list (RemoteCall unit)) (ctx : unit)
    (r : Report) : error := Some "connection reset by peer".

Definition fresh_world : World (Measurement := unit) :=
  {| runner := mkRunner None "tor" "2019-11-12 10:15:00" "0.0.1"; calls := [] |}.

Definition opened_world : World (Measurement := unit) :=
  snd (OpenReport sample_OpenReport tt fresh_world).

(** C4 on the sample collector: the second open changes nothing, and the
    close clears the handle although the collector reports an error. *)
Lemma report_lifecycle_on_sample :
  RReport (runner opened_world) = Some sample_report /\
  OpenReport sample_OpenReport tt opened_world = (None, opened_world) /\
  (let '(err, w') := CloseReport sample_Close tt opened_world in
   err = Some "connection reset by peer" /\
   RReport (runner w') = None /\
   calls w' = [CallOpenReport "tor" "0.0.1";
               CallCloseReport "20191112T101500Z_AS30722_tor"]).
Proof.
  assert (Ho : RReport (runner opened_world) = Some sample_report) by reflexivity.
  destruct (report_lifecycle sample_OpenReport sample_Submit sample_Close)
    as (H1 & _ & _ & H4 & _).
  split; [exact Ho|]. split.
  - exact (H1 tt opened_world sample_report Ho).
  - exact (H4 tt opened_world sample_report Ho).
Defined.

(** C5 on the sample collector, before any report was opened. *)
Lemma submit_without_report_on_sample :
  RReport (runner fresh_world) = None /\
  SubmitMeasurement sample_Submit tt tt fresh_world
    = (Some "Report is not open", fresh_world).
Proof.
  split; [reflexivity|].
  exact (submit_without_report sample_Submit tt tt fresh_world eq_refl).
Defined.

(** ** SaveMeasurement *)

(** What the operating system did with
      os.OpenFile(path, O_APPEND|O_CREATE|O_WRONLY, 0600), Write, Close:
    all three succeeded; the open failed; the write failed after
    [written] bytes; or the close failed after a complete write. *)
Inductive AppendOutcome :=
| AppendOk
| OpenFails (e : string)
| WriteFails (written : nat) (e : string)
| CloseFails (e : string).

Section Saving.

Context {Measurement : Type}.

(** json.Marshal on a measurement, and the behaviour of the disk. *)
Variable json_Marshal : Measurement -> list Byte.byte + string.
Variable append_outcome :
  gmap string (list Byte.byte) -> string -> list Byte.byte -> AppendOutcome.

(** The content of a file, an absent file having none. *)
Definition content (fs : gmap string (list Byte.byte)) (path : string)
    : list Byte.byte :=
  default [] (fs !! path).

(** func (e *Experiment) SaveMeasurement(measurement, filePath) error *)
Definition SaveMeasurement (measurement : Measurement) (filePath : string)
    (fs : gmap string (list Byte.byte)) : error * gmap string (list Byte.byte) :=
  match json_Marshal measurement with
  | inr e => (Some e, fs)
  | inl data =>
      let data := data ++ [Byte.x0a] in
      match append_outcome fs filePath data with
      | OpenFails e => (Some e, fs)
      | WriteFails written e =>
          (Some e, <[filePath := content fs filePath ++ take written data]> fs)
      | CloseFails e =>
          (Some e, <[filePath := content fs filePath ++ data]> fs)
      | AppendOk =>
          (None, <[filePath := content fs filePath ++ data]> fs)
      end
  end.

(** A caller saving measurements one after the other, stopping at the
    first error. *)
Fixpoint SaveAll (ms : list Measurement) (filePath : string)
    (fs : gmap string (list Byte.byte)) : error * gmap string (list Byte.byte) :=
  match ms with
  | [] => (None, fs)
  | m :: rest =>
      match SaveMeasurement m filePath fs with
      | (None, fs') => SaveAll rest filePath fs'
      | (Some e, fs') => (Some e, fs')
      end
  end.

Lemma content_insert fs path data : content (<[path := data]> fs) path = data.
Proof. unfold content. by rewrite lookup_insert_eq. Qed.

Lemma save_ok m path fs :
  fst (SaveMeasurement m path fs) = None ->
  exists data, json_Marshal m = inl data /\
    snd (SaveMeasurement m path fs) !! path
      = Some (content fs path ++ data ++ [Byte.x0a]).
Proof.
  unfold SaveMeasurement. destruct (json_Marshal m) as [data|e]; [|done].
  destruct (append_outcome fs path (data ++ [Byte.x0a])); try done.
  intros _. exists data. simpl. by rewrite lookup_insert_eq.
Qed.

(** SaveMeasurement only ever appends to the one file it is given: other
    files are untouched, what the file held stays in front of whatever is
    added, whether the call succeeds or fails; a measurement that cannot
    be serialized changes nothing; and on success exactly the serialized
    measurement and a newline have been added. *)
Theorem save_measurement_appends :
  forall m path fs,
    let out := SaveMeasurement m path fs in
    (forall p, p <> path -> snd out !! p = fs !! p) /\
    (exists suffix, content (snd out) path = content fs path ++ suffix) /\
    (forall e, json_Marshal m = inr e -> out = (Some e, fs)) /\
    (fst out = None ->
       exists data, json_Marshal m = inl data /\
         snd out !! path = Some (content fs path ++ data ++ [Byte.x0a])).
Proof.
  intros m path fs out. subst out. unfold SaveMeasurement.
  destruct (json_Marshal m) as [data|e] eqn:Hm.
  - destruct (append_outcome fs path (data ++ [Byte.x0a])) as [|e|n e|e]; simpl.
    + split; [intros p Hp; by rewrite lookup_insert_ne|].
      split; [rewrite content_insert; eauto|]. split; [done|].
      intros _. exists data. by rewrite lookup_insert_eq.
    + split; [done|]. split; [exists []; by rewrite app_nil_r|]. done.
    + split; [intros p Hp; by rewrite lookup_insert_ne|].
      split; [rewrite content_insert; eauto|]. done.
    + split; [intros p Hp; by rewrite lookup_insert_ne|].
      split; [rewrite content_insert; eauto|]. done.
  - simpl. split; [done|]. split; [exists []; by rewrite app_nil_r|].
    split; [congruence|done].
Qed.

(** Measurements saved one after the other to the same file end up in
    it in that order, one per line, after what the file held before. *)
Theorem save_all_in_order :
  forall ms path fs fs',
    SaveAll ms path fs = (None, fs') ->
    exists datas,
      Forall2 (fun m d => json_Marshal m = inl d) ms datas /\
      content fs' path
        = content fs path ++ concat ((fun d => d ++ [Byte.x0a]) <$> datas).
Proof.
  induction ms as [|m ms IH]; intros path fs fs' H; simpl in H.
  - injection H as <-. exists []. split; [constructor|]. by rewrite app_nil_r.
  - destruct (SaveMeasurement m path fs) as [[e|] fs1] eqn:Hs; [done|].
    pose proof (save_ok m path fs) as Hok.
    rewrite Hs in Hok. destruct (Hok eq_refl) as (d & Hd & Hf). simpl in Hf.
    destruct (IH path fs1 fs' H) as (datas & HF & Hc).
    exists (d :: datas). split; [by constructor|].
    rewrite Hc. unfold content at 1. rewrite Hf. simpl.
    by rewrite <- !app_assoc.
Qed.

End Saving.

(** ** Measure *)

(** The parts of session.Session that newMeasurement reads. *)
Record Session := mkSession {
  ProbeIP : string;
  ProbeASNString : string;
  ProbeCC : string;
  SoftwareName : string;
  SoftwareVersion : string
}.

(** model.Measurement: the fields newMeasurement sets, and the test keys
    the measurement function fills in. *)
Record MeasurementRecord (TK : Type) := mkMeasurement {
  mDataFormatVersion : string;
  mInput : string;
  mMeasurementStartTime : string;
  mProbeIP : string;
  mProbeASN : string;
  mProbeCC : string;
  mReportID : string;
  mSoftwareName : string;
  mSoftwareVersion : string;
  mTestName : string;
  mTestStartTime : string;
  mTestVersion : string;
  mTestKeys : option TK
}.
Arguments mkMeasurement {TK}.
Arguments mReportID {TK}.
Arguments mInput {TK}.
Arguments mTestKeys {TK}.

Section Measuring.

Context {Ctx TK : Type}.

Variable session_OpenReport :
  list (RemoteCall (MeasurementRecord TK)) -> Ctx -> string -> string
  -> option Report * error.
Variable report_SubmitMeasurement :
  list (RemoteCall (MeasurementRecord TK)) -> Ctx -> Report
  -> MeasurementRecord TK -> error.

(** The field DoMeasure: it receives the measurement by pointer and
    returns an error; here it returns the measurement as it leaves it. *)
Variable DoMeasure :
  Ctx -> Session -> MeasurementRecord TK -> MeasurementRecord TK * error.

Local Notation "'let*' x ':=' m 'in' k" := (bind m (fun x => k))
  (at level 10, x name, m at level 100, k at level 200).

(** func (e *Experiment) newMeasurement(input) model.Measurement; [now]
    is what formatTimeNowUTC() returns. *)
Definition newMeasurement (sess : Session) (now input : string)
    : M (Measurement := MeasurementRecord TK) (MeasurementRecord TK) :=
  let* e := getRunner in
  let* rid := ReportID in
  ret {| mDataFormatVersion := "0.2.0";
         mInput := input;
         mMeasurementStartTime := now;
         mProbeIP := ProbeIP sess;
         mProbeASN := ProbeASNString sess;
         mProbeCC := ProbeCC sess;
         mReportID := rid;
         mSoftwareName := SoftwareName sess;
         mSoftwareVersion := SoftwareVersion sess;
         mTestName := TestName e;
         mTestStartTime := TestStartTime e;
         mTestVersion := TestVersion e;
         mTestKeys := None |}.

(** func (e *Experiment) Measure(ctx, input) (measurement, err) *)
Definition Measure (sess : Session) (now : string) (ctx : Ctx) (input : string)
    : M (Measurement := MeasurementRecord TK) (MeasurementRecord TK * error) :=
  let* measurement := newMeasurement sess now input in
  ret (DoMeasure ctx sess measurement).

(** A measurement is tied to the report that is open when it is made.
    Provided the measurement function leaves the report ID alone, Measure
    changes neither the experiment nor the collector; a measurement made
    with no report open carries the empty report ID; and one made after
    the collector granted a report carries that report's ID, which is
    also the ID under which SubmitMeasurement then sends it. *)
Theorem measurement_carries_open_report :
  (forall ctx sess m, mReportID (DoMeasure ctx sess m).1 = mReportID m) ->
  forall sess now ctx input w,
    snd (Measure sess now ctx input w) = w /\
    (RReport (runner w) = None ->
       mReportID (fst (Measure sess now ctx input w)).1 = "") /\
    (forall rep,
       RReport (runner w) = None ->
       fst (session_OpenReport (calls w) ctx (TestName (runner w))
              (TestVersion (runner w))) = Some rep ->
       let w1 := snd (OpenReport session_OpenReport ctx w) in
       let m := (fst (Measure sess now ctx input w1)).1 in
       mReportID m = ID rep /\
       calls (snd (SubmitMeasurement report_SubmitMeasurement ctx m w1))
         = calls w1 ++ [CallSubmitMeasurement (mReportID m) m]).
Proof.
  intros Hkeep sess now ctx input w.
  assert (Hid : forall w0, mReportID (fst (Measure sess now ctx input w0)).1
                           = fst (ReportID w0)).
  { intros w0. unfold Measure, newMeasurement, ReportID, bind, getRunner,
      getReport, ret.
    destruct (RReport (runner w0)) eqn:E; simpl; by rewrite Hkeep. }
  split; [|split].
  - unfold Measure, newMeasurement, ReportID, bind, getRunner, getReport, ret.
    by destruct (RReport (runner w)).
  - intros Hr. rewrite Hid. unfold ReportID, bind, getReport, ret. by rewrite Hr.
  - intros rep Hr Hans w1 m.
    assert (Hr1 : RReport (runner w1) = Some rep).
    { subst w1. unfold OpenReport, bind, getReport, getRunner, remote, putReport, ret.
      rewrite Hr. simpl. exact Hans. }
    assert (Hm : mReportID m = ID rep).
    { subst m. rewrite Hid. unfold ReportID, bind, getReport, ret. by rewrite Hr1. }
    split; [exact Hm|].
    unfold SubmitMeasurement, bind, getReport, remote. rewrite Hr1. simpl.
    by rewrite Hm.
Qed.

End Measuring.

(** ** The extra properties on samples *)

(** A caller that submits too early, opens twice, submits, and closes
    twice. *)
Definition sample_ops : list (Op (Ctx := unit) (Measurement := unit)) :=
  [OpSubmit tt tt; OpOpen tt; OpOpen tt; OpSubmit tt tt; OpClose tt; OpClose tt].

Lemma lifecycle_calls_balanced_on_sample :
  calls (run_ops sample_OpenReport sample_Submit sample_Close sample_ops fresh_world)
    = [CallOpenReport "tor" "0.0.1";
       CallSubmitMeasurement "20191112T101500Z_AS30722_tor" tt;
       CallCloseReport "20191112T101500Z_AS30722_tor"] /\
  (close_calls (calls (run_ops sample_OpenReport sample_Submit sample_Close
                         sample_ops fresh_world))
   <= open_calls (calls (run_ops sample_OpenReport sample_Submit sample_Close
                           sample_ops fresh_world)))%nat.
Proof.
  split; [reflexivity|].
  pose proof (proj1 (lifecycle_calls_balanced sample_OpenReport sample_Submit
                sample_Close sample_ops fresh_world eq_refl eq_refl)) as H.
  cbv zeta in H. eapply Nat.le_trans; [|exact H]. apply Nat.le_add_r.
Defined.

Lemma report_session_on_sample :
  RReport (runner fresh_world) = None /\
  calls (run_ops sample_OpenReport sample_Submit sample_Close
           (OpOpen tt :: (OpSubmit tt <$> [tt; tt]) ++ [OpClose tt]) fresh_world)
    = [CallOpenReport "tor" "0.0.1";
       CallSubmitMeasurement "20191112T101500Z_AS30722_tor" tt;
       CallSubmitMeasurement "20191112T101500Z_AS30722_tor" tt;
       CallCloseReport "20191112T101500Z_AS30722_tor"].
Proof.
  split; [reflexivity|].
  exact (proj1 (report_session sample_OpenReport sample_Submit sample_Close
                  tt [tt; tt] fresh_world sample_report eq_refl eq_refl)).
Defined.

(** Two one-byte measurements saved to a log that holds one line. *)
Definition sample_Marshal (m : Byte.byte) : list Byte.byte + string := inl [m].
Definition sample_append (fs : gmap string (list Byte.byte)) (path : string)
    (data : list Byte.byte) : AppendOutcome := AppendOk.
Definition sample_log : gmap string (list Byte.byte) :=
  {["report.jsonl" := [Byte.x7b; Byte.x7d; Byte.x0a]]}.

Lemma save_all_in_order_on_sample :
  exists fs',
    SaveAll sample_Marshal sample_append [Byte.x31; Byte.x32] "report.jsonl" sample_log
      = (None, fs') /\
    content fs' "report.jsonl"
      = [Byte.x7b; Byte.x7d; Byte.x0a; Byte.x31; Byte.x0a; Byte.x32; Byte.x0a].
Proof.
  eexists. split; [reflexivity|].
  destruct (save_all_in_order sample_Marshal sample_append
              [Byte.x31; Byte.x32] "report.jsonl" sample_log _ eq_refl)
    as (datas & HF & Hc).
  rewrite Hc.
  inversion HF as [|? d1 ? ds1 H1 HF1]; subst.
  inversion HF1 as [|? d2 ? ds2 H2 HF2]; subst.
  inversion HF2; subst.
  injection H1 as <-. injection H2 as <-. vm_compute. reflexivity.
Defined.

Lemma save_measurement_appends_on_sample :
  fst (SaveMeasurement sample_Marshal sample_append Byte.x31 "report.jsonl"
         sample_log) = None /\
  snd (SaveMeasurement sample_Marshal sample_append Byte.x31 "report.jsonl"
         sample_log) !! "report.jsonl"
    = Some [Byte.x7b; Byte.x7d; Byte.x0a; Byte.x31; Byte.x0a].
Proof.
  split; [reflexivity|].
  destruct (save_measurement_appends sample_Marshal sample_append Byte.x31
              "report.jsonl" sample_log) as (_ & _ & _ & Hok).
  destruct (Hok eq_refl) as (data & Hd & Hf).
  injection Hd as <-. rewrite Hf. reflexivity.
Defined.

(** A measurement function that only fills in the test keys. *)
Definition sample_DoMeasure (ctx : unit) (sess : Session)
    (m : MeasurementRecord nat) : MeasurementRecord nat * error :=
  (mkMeasurement (mDataFormatVersion _ m) (mInput m) (mMeasurementStartTime _ m)
     (mProbeIP _ m) (mProbeASN _ m) (mProbeCC _ m) (mReportID m)
     (mSoftwareName _ m) (mSoftwareVersion _ m) (mTestName _ m)
     (mTestStartTime _ m) (mTestVersion _ m) (Some 7%nat), None).

Definition sample_session : Session :=
  mkSession "127.0.0.1" "AS30722" "IT" "miniooni" "0.1.0".

Definition measuring_OpenReport (log : list (RemoteCall (MeasurementRecord nat)))
    (ctx : unit) (name version : string) : option Report * error :=
  (Some sample_report, None).
Definition measuring_Submit (log : list (RemoteCall (MeasurementRecord nat)))
    (ctx : unit) (r : Report) (m : MeasurementRecord nat) : error := None.

Definition measuring_world : World (Measurement := MeasurementRecord nat) :=
  {| runner := New "tor" "0.0.1" "2019-11-12 10:15:00"; calls := [] |}.

Lemma measurement_carries_open_report_on_sample :
  mReportID (fst (Measure sample_DoMeasure sample_session "2019-11-12 10:15:02"
                    tt "" measuring_world)).1 = "" /\
  mReportID (fst (Measure sample_DoMeasure sample_session "2019-11-12 10:15:02"
                    tt ""
                    (snd (OpenReport measuring_OpenReport tt measuring_world)))).1
    = "20191112T101500Z_AS30722_tor".
Proof.
  destruct (measurement_carries_open_report measuring_OpenReport measuring_Submit
              sample_DoMeasure (fun _ _ _ => eq_refl)
              sample_session "2019-11-12 10:15:02" tt "" measuring_world)
    as (_ & Hnone & Hopen).
  split; [exact (Hnone eq_refl)|].
  exact (proj1 (Hopen sample_report eq_refl eq_refl)).
Defined.

End Experiment.

(* ===================================================================== *)
(** * resources/resources.go *)
(* ===================================================================== *)

Module Resources.

Abbreviation bytes := (list Byte.byte).

(** A Go result pair whose value is only used when the error is nil. *)
Inductive result (A : Type) :=
| Ok (a : A)
| Err (e : string).
Arguments Ok {A}.
Arguments Err {A}.

(** ResourceInfo, as the tests construct it. *)
Record ResourceInfo := mkResourceInfo {
  URLPath : string;
  GzSHA256 : string;
  SHA256 : string
}.

(** The fields of [Client] that name things; HTTPClient and Logger are
    the collaborators below. *)
Record Client := mkClient {
  UserAgent : string;
  WorkDir : string
}.

(** What ioutil.WriteFile did: it wrote the whole file, or it failed and
    left the path untouched ([None]) or holding other content. *)
Inductive WriteOutcome :=
| WriteOk
| WriteFails (left_behind : option bytes) (e : string).

(** The working directory, the fetches made (URL and expected hash of
    the compressed blob, oldest first) and the debug log. *)
Record Env := mkEnv {
  fs : gmap string bytes;
  fetches : list (string * string);
  debug : list string
}.

Definition Debugf (msg : string) (env : Env) : Env :=
  {| fs := fs env; fetches := fetches env; debug := debug env ++ [msg] |}.

Definition log_fetch (url gzsha : string) (env : Env) : Env :=
  {| fs := fs env; fetches := fetches env ++ [(url, gzsha)]; debug := debug env |}.

Definition set_fs (f : gmap string bytes) (env : Env) : Env :=
  {| fs := f; fetches := fetches env; debug := debug env |}.

Section Ensure.

Context {Ctx GzReader : Type}.

(** Library functions and the parts of this package that are not in the
    sources at hand: filepath.Join, the hex digest
    [fmt.Sprintf("%x", sha256.Sum256(data))], the constant RepositoryURL,
    fetch.Client.FetchAndVerify and the behaviour of the disk on a write. *)
Variable filepath_Join : string -> string -> string.
Variable sha256_hex : bytes -> string.
Variable RepositoryURL : string.
Variable FetchAndVerify : Client -> Ctx -> string -> string -> result bytes.
Variable write_outcome : gmap string bytes -> string -> bytes -> WriteOutcome.

(** ioutil.ReadFile: an absent file cannot be read. *)
Definition ReadFile (path : string) (env : Env) : result bytes :=
  match fs env !! path with
  | Some data => Ok data
  | None => Err ("open " +:+ path +:+ ": no such file or directory")
  end.

(** ioutil.WriteFile(path, data, 0600) *)
Definition WriteFile (path : string) (data : bytes) (env : Env) : error * Env :=
  match write_outcome (fs env) path data with
  | WriteOk => (None, set_fs (<[path := data]> (fs env)) env)
  | WriteFails None e => (Some e, env)
  | WriteFails (Some junk) e => (Some e, set_fs (<[path := junk]> (fs env)) env)
  end.

(** func (c *Client) EnsureForSingleResource(
      ctx, name, resource, equal, gzipNewReader, ioutilReadAll) error *)
Definition EnsureForSingleResource
    (c : Client) (ctx : Ctx) (name : string) (resource : ResourceInfo)
    (equal : string -> string -> bool)
    (gzipNewReader : bytes -> result GzReader)
    (ioutilReadAll : GzReader -> result bytes)
    (env : Env) : error * Env :=
  let fullpath := filepath_Join (WorkDir c) name in
  let precheck :=
    match ReadFile fullpath env with
    | Ok data =>
        if equal (sha256_hex data) (SHA256 resource) then inl tt
        else inr (Debugf ("resources: " +:+ fullpath +:+ " is outdated") env)
    | Err e =>
        inr (Debugf ("resources: can't read " +:+ fullpath +:+ ": " +:+ e) env)
    end in
  match precheck with
  | inl _ => (None, env)
  | inr env1 =>
      let URL := RepositoryURL +:+ URLPath resource in
      let env2 := Debugf ("resources: fetch " +:+ URL) env1 in
      let env3 := log_fetch URL (GzSHA256 resource) env2 in
      match FetchAndVerify c ctx URL (GzSHA256 resource) with
      | Err e => (Some e, env3)
      | Ok blob =>
          let env4 := Debugf ("resources: uncompress " +:+ fullpath) env3 in
          match gzipNewReader blob with
          | Err e => (Some e, env4)
          | Ok gzreader =>
              match ioutilReadAll gzreader with
              | Err e => (Some e, env4)
              | Ok data =>
                  if negb (equal (sha256_hex data) (SHA256 resource)) then
                    (Some ("resources: " +:+ fullpath +:+ " sha256 mismatch"), env4)
                  else
                    let env5 := Debugf ("resources: overwrite " +:+ fullpath) env4 in
                    WriteFile fullpath data env5
              end
          end
      end
  end.

(** func (c *Client) Ensure(ctx) error, over the entries of the catalog
    [All] in the order the range statement visits them. *)
Fixpoint Ensure_loop (c : Client) (ctx : Ctx)
    (gzipNewReader : bytes -> result GzReader)
    (ioutilReadAll : GzReader -> result bytes)
    (entries : list (string * ResourceInfo)) (env : Env) : error * Env :=
  match entries with
  | [] => (None, env)
  | (name, resource) :: rest =>
      match EnsureForSingleResource c ctx name resource String.eqb
              gzipNewReader ioutilReadAll env with
      | (Some e, env') => (Some e, env')
      | (None, env') => Ensure_loop c ctx gzipNewReader ioutilReadAll rest env'
      end
  end.

(** The local file is current: it exists and the comparator accepts its
    digest. *)
Definition cache_hit (c : Client) (name : string) (resource : ResourceInfo)
    (equal : string -> string -> bool) (env : Env) : Prop :=
  exists data, fs env !! filepath_Join (WorkDir c) name = Some data /\
               equal (sha256_hex data) (SHA256 resource) = true.

(** The download path reached the write: the blob was fetched, unpacked
    and read, and the comparator accepted the digest of the result. *)
Definition verified (c : Client) (ctx : Ctx) (resource : ResourceInfo)
    (equal : string -> string -> bool)
    (gzipNewReader : bytes -> result GzReader)
    (ioutilReadAll : GzReader -> result bytes) (data : bytes) : Prop :=
  exists blob gz,
    FetchAndVerify c ctx (RepositoryURL +:+ URLPath resource) (GzSHA256 resource) = Ok blob /\
    gzipNewReader blob = Ok gz /\
    ioutilReadAll gz = Ok data /\
    equal (sha256_hex data) (SHA256 resource) = true.

(** C6. When the local file exists and the comparator accepts its digest,
    EnsureForSingleResource returns nil and changes nothing: no fetch is
    made, nothing is written and nothing is logged. *)
Theorem ensure_cache_hit :
  forall c ctx name resource equal gzipNewReader ioutilReadAll env data,
    fs env !! filepath_Join (WorkDir c) name = Some data ->
    equal (sha256_hex data) (SHA256 resource) = true ->
    EnsureForSingleResource c ctx name resource equal gzipNewReader ioutilReadAll env
      = (None, env) /\
    fetches (snd (EnsureForSingleResource c ctx name resource equal
                    gzipNewReader ioutilReadAll env)) = fetches env.
Proof.
  intros c ctx name resource equal gzipNewReader ioutilReadAll env data Hfile Heq.
  assert (H : EnsureForSingleResource c ctx name resource equal
                gzipNewReader ioutilReadAll env = (None, env)).
  { unfold EnsureForSingleResource, ReadFile. by rewrite Hfile, Heq. }
  split; [exact H|]. by rewrite H.
Qed.

(** The working directory changes only through the final write, which is
    reached only with verified content. *)
Lemma ensure_fs_changed_verified :
  forall c ctx name resource equal gzipNewReader ioutilReadAll env,
    fs (snd (EnsureForSingleResource c ctx name resource equal
               gzipNewReader ioutilReadAll env)) <> fs env ->
    exists data, verified c ctx resource equal gzipNewReader ioutilReadAll data.
Proof.
  intros c ctx name resource equal gzipNewReader ioutilReadAll env.
  unfold EnsureForSingleResource, verified.
  set (fullpath := filepath_Join (WorkDir c) name).
  destruct (ReadFile fullpath env) as [d0|e0];
    [destruct (equal (sha256_hex d0) (SHA256 resource)); [simpl; congruence|]|];
    (destruct (FetchAndVerify c ctx _ _) as [blob|e1]; [|simpl; congruence];
     destruct (gzipNewReader blob) as [gz|e2] eqn:Hgz; [|simpl; congruence];
     destruct (ioutilReadAll gz) as [data|e3] eqn:Hrd; [|simpl; congruence];
     destruct (equal (sha256_hex data) (SHA256 resource)) eqn:Hsum;
       [|simpl; congruence];
     intros _; exists data, blob, gz; done).
Qed.

(** C7. A fetch failure, a failure to open the gzip stream, a failure to
    read it, or a digest the comparator rejects after decompression each
    make EnsureForSingleResource return that error with the working
    directory exactly as it was; the directory only ever changes once the
    decompressed content has been verified; and when the call returns nil
    the file is present with content whose digest the comparator accepts,
    hence equal to the declared one when the comparator is an equality
    test. *)
Theorem ensure_writes_only_verified :
  forall c ctx name resource equal gzipNewReader ioutilReadAll env,
    let fullpath := filepath_Join (WorkDir c) name in
    let URL := RepositoryURL +:+ URLPath resource in
    let out := EnsureForSingleResource c ctx name resource equal
                 gzipNewReader ioutilReadAll env in
    (~ cache_hit c name resource equal env ->
       (forall e, FetchAndVerify c ctx URL (GzSHA256 resource) = Err e ->
          fst out = Some e /\ fs (snd out) = fs env) /\
       (forall blob e, FetchAndVerify c ctx URL (GzSHA256 resource) = Ok blob ->
          gzipNewReader blob = Err e ->
          fst out = Some e /\ fs (snd out) = fs env) /\
       (forall blob gz e, FetchAndVerify c ctx URL (GzSHA256 resource) = Ok blob ->
          gzipNewReader blob = Ok gz -> ioutilReadAll gz = Err e ->
          fst out = Some e /\ fs (snd out) = fs env) /\
       (forall blob gz data, FetchAndVerify c ctx URL (GzSHA256 resource) = Ok blob ->
          gzipNewReader blob = Ok gz -> ioutilReadAll gz = Ok data ->
          equal (sha256_hex data) (SHA256 resource) = false ->
          fst out = Some ("resources: " +:+ fullpath +:+ " sha256 mismatch") /\
          fs (snd out) = fs env)) /\
    (fs (snd out) <> fs env ->
       exists data, verified c ctx resource equal gzipNewReader ioutilReadAll data) /\
    (fst out = None ->
       exists data, fs (snd out) !! fullpath = Some data /\
                    equal (sha256_hex data) (SHA256 resource) = true /\
                    ((forall a b, equal a b = true -> a = b) ->
                     sha256_hex data = SHA256 resource)).
Proof.
  intros c ctx name resource equal gzipNewReader ioutilReadAll env fullpath URL out.
  enough (Hmain :
    (~ cache_hit c name resource equal env ->
       (forall e, FetchAndVerify c ctx URL (GzSHA256 resource) = Err e ->
          fst out = Some e /\ fs (snd out) = fs env) /\
       (forall blob e, FetchAndVerify c ctx URL (GzSHA256 resource) = Ok blob ->
          gzipNewReader blob = Err e ->
          fst out = Some e /\ fs (snd out) = fs env) /\
       (forall blob gz e, FetchAndVerify c ctx URL (GzSHA256 resource) = Ok blob ->
          gzipNewReader blob = Ok gz -> ioutilReadAll gz = Err e ->
          fst out = Some e /\ fs (snd out) = fs env) /\
       (forall blob gz data, FetchAndVerify c ctx URL (GzSHA256 resource) = Ok blob ->
          gzipNewReader blob = Ok gz -> ioutilReadAll gz = Ok data ->
          equal (sha256_hex data) (SHA256 resource) = false ->
          fst out = Some ("resources: " +:+ fullpath +:+ " sha256 mismatch") /\
          fs (snd out) = fs env)) /\
    (fs (snd out) <> fs env ->
       exists data, verified c ctx resource equal gzipNewReader ioutilReadAll data) /\
    (fst out = None ->
       exists data, fs (snd out) !! fullpath = Some data /\
                    equal (sha256_hex data) (SHA256 resource) = true)).
  { destruct Hmain as (H1 & H2 & H3). split; [exact H1|]. split; [exact H2|].
    intros Hnil. destruct (H3 Hnil) as (data & Hd & Heq).
    exists data. split; [done|]. split; [done|]. intros Hequal. by apply Hequal. }
  split; [|split].
  - intros Hmiss.
    assert (Hpre : exists env1, fs env1 = fs env /\
      out = (let env3 := log_fetch URL (GzSHA256 resource)
                           (Debugf ("resources: fetch " +:+ URL) env1) in
             match FetchAndVerify c ctx URL (GzSHA256 resource) with
             | Err e => (Some e, env3)
             | Ok blob =>
                 let env4 := Debugf ("resources: uncompress " +:+ fullpath) env3 in
                 match gzipNewReader blob with
                 | Err e => (Some e, env4)
                 | Ok gzreader =>
                     match ioutilReadAll gzreader with
                     | Err e => (Some e, env4)
                     | Ok data =>
                         if negb (equal (sha256_hex data) (SHA256 resource)) then
                           (Some ("resources: " +:+ fullpath +:+ " sha256 mismatch"), env4)
                         else WriteFile fullpath data
                                (Debugf ("resources: overwrite " +:+ fullpath) env4)
                     end
                 end
             end)).
    { subst out. unfold EnsureForSingleResource, ReadFile. fold fullpath. fold URL.
      destruct (fs env !! fullpath) as [d0|] eqn:Hfile.
      - destruct (equal (sha256_hex d0) (SHA256 resource)) eqn:Heq.
        + exfalso. apply Hmiss. exists d0. done.
        + eexists. split; [|reflexivity]. done.
      - eexists. split; [|reflexivity]. done. }
    destruct Hpre as (env1 & Hfs1 & Hout). rewrite Hout. clear Hout. simpl.
    split; [|split; [|split]].
    + intros e Hf. by rewrite Hf.
    + intros blob e Hf Hgz. by rewrite Hf, Hgz.
    + intros blob gz e Hf Hgz Hrd. by rewrite Hf, Hgz, Hrd.
    + intros blob gz data Hf Hgz Hrd Hsum. by rewrite Hf, Hgz, Hrd, Hsum.
  - apply ensure_fs_changed_verified.
  - subst out. unfold EnsureForSingleResource, ReadFile. fold fullpath. fold URL.
    assert (Hw : forall data env0,
      equal (sha256_hex data) (SHA256 resource) = true ->
      fst (WriteFile fullpath data env0) = None ->
      exists data', fs (snd (WriteFile fullpath data env0)) !! fullpath = Some data' /\
                    equal (sha256_hex data') (SHA256 resource) = true).
    { intros data env0 Hsum. unfold WriteFile.
      destruct (write_outcome (fs env0) fullpath data) as [|[junk|] e]; simpl;
        try discriminate.
      intros _. exists data. by rewrite lookup_insert_eq. }
    destruct (fs env !! fullpath) as [d0|] eqn:Hfile;
      [destruct (equal (sha256_hex d0) (SHA256 resource)) eqn:Heq;
         [simpl; intros _; eauto|]|];
      (destruct (FetchAndVerify c ctx URL _) as [blob|e1]; [|simpl; congruence];
       destruct (gzipNewReader blob) as [gz|e2]; [|simpl; congruence];
       destruct (ioutilReadAll gz) as [data|e3]; [|simpl; congruence];
       destruct (equal (sha256_hex data) (SHA256 resource)) eqn:Hsum;
         [|simpl; congruence];
       simpl; apply Hw; done).
Qed.

(** ** The two halves of EnsureForSingleResource *)

(** The check of the local file: [inl] on a hit, else the environment
    with the reason logged. *)
Definition precheck (c : Client) (name : string) (resource : ResourceInfo)
    (equal : string -> string -> bool) (env : Env) : unit + Env :=
  let fullpath := filepath_Join (WorkDir c) name in
  match ReadFile fullpath env with
  | Ok data =>
      if equal (sha256_hex data) (SHA256 resource) then inl tt
      else inr (Debugf ("resources: " +:+ fullpath +:+ " is outdated") env)
  | Err e =>
      inr (Debugf ("resources: can't read " +:+ fullpath +:+ ": " +:+ e) env)
  end.

(** Everything after the check: fetch, decompress, verify, write. *)
Definition download (c : Client) (ctx : Ctx) (name : string) (resource : ResourceInfo)
    (equal : string -> string -> bool)
    (gzipNewReader : bytes -> result GzReader)
    (ioutilReadAll : GzReader -> result bytes)
    (env1 : Env) : error * Env :=
  let fullpath := filepath_Join (WorkDir c) name in
  let URL := RepositoryURL +:+ URLPath resource in
  let env3 := log_fetch URL (GzSHA256 resource)
                (Debugf ("resources: fetch " +:+ URL) env1) in
  match FetchAndVerify c ctx URL (GzSHA256 resource) with
  | Err e => (Some e, env3)
  | Ok blob =>
      let env4 := Debugf ("resources: uncompress " +:+ fullpath) env3 in
      match gzipNewReader blob with
      | Err e => (Some e, env4)
      | Ok gzreader =>
          match ioutilReadAll gzreader with
          | Err e => (Some e, env4)
          | Ok data =>
              if negb (equal (sha256_hex data) (SHA256 resource)) then
                (Some ("resources: " +:+ fullpath +:+ " sha256 mismatch"), env4)
              else WriteFile fullpath data
                     (Debugf ("resources: overwrite " +:+ fullpath) env4)
          end
      end
  end.

Lemma ensure_split c ctx name resource equal gzipNewReader ioutilReadAll env :
  EnsureForSingleResource c ctx name resource equal gzipNewReader ioutilReadAll env
  = match precheck c name resource equal env with
    | inl _ => (None, env)
    | inr env1 => download c ctx name resource equal gzipNewReader ioutilReadAll env1
    end.
Proof. reflexivity. Qed.

Lemma precheck_hit c name resource equal env :
  cache_hit c name resource equal env ->
  precheck c name resource equal env = inl tt.
Proof.
  intros (data & Hf & Heq). unfold precheck, ReadFile. by rewrite Hf, Heq.
Qed.

Lemma precheck_miss c name resource equal env :
  ~ cache_hit c name resource equal env ->
  exists env1, precheck c name resource equal env = inr env1 /\
               fs env1 = fs env /\ fetches env1 = fetches env.
Proof.
  intros Hmiss. unfold precheck, ReadFile.
  destruct (fs env !! filepath_Join (WorkDir c) name) as [d0|] eqn:Hf.
  - destruct (equal (sha256_hex d0) (SHA256 resource)) eqn:Heq.
    + destruct Hmiss. by exists d0.
    + eexists. split; [done|]. done.
  - eexists. split; [done|]. done.
Qed.

Lemma cache_hit_dec c name resource equal env :
  cache_hit c name resource equal env \/ ~ cache_hit c name resource equal env.
Proof.
  unfold cache_hit.
  destruct (fs env !! filepath_Join (WorkDir c) name) as [d0|] eqn:Hf.
  - destruct (equal (sha256_hex d0) (SHA256 resource)) eqn:Heq.
    + left. eauto.
    + right. intros (d & Hd & He). congruence.
  - right. intros (d & Hd & _). congruence.
Qed.

Lemma WriteFile_frame path data env p :
  p <> path -> fs (snd (WriteFile path data env)) !! p = fs env !! p.
Proof.
  intros Hp. unfold WriteFile.
  destruct (write_outcome (fs env) path data) as [|[junk|] e]; simpl;
    rewrite ?lookup_insert_ne; done.
Qed.

Lemma WriteFile_fetches path data env :
  fetches (snd (WriteFile path data env)) = fetches env.
Proof.
  unfold WriteFile.
  by destruct (write_outcome (fs env) path data) as [|[junk|] e].
Qed.

Lemma download_fetches c ctx name resource equal gzipNewReader ioutilReadAll env1 :
  fetches (snd (download c ctx name resource equal gzipNewReader ioutilReadAll env1))
  = fetches env1 ++ [(RepositoryURL +:+ URLPath resource, GzSHA256 resource)].
Proof.
  unfold download.
  destruct (FetchAndVerify c ctx _ _) as [blob|e1]; [|done].
  destruct (gzipNewReader blob) as [gz|e2]; [|done].
  destruct (ioutilReadAll gz) as [data|e3]; [|done].
  destruct (equal (sha256_hex data) (SHA256 resource)); simpl; [|done].
  by rewrite WriteFile_fetches.
Qed.

Lemma download_frame c ctx name resource equal gzipNewReader ioutilReadAll env1 p :
  p <> filepath_Join (WorkDir c) name ->
  fs (snd (download c ctx name resource equal gzipNewReader ioutilReadAll env1)) !! p
  = fs env1 !! p.
Proof.
  intros Hp. unfold download.
  destruct (FetchAndVerify c ctx _ _) as [blob|e1]; [|done].
  destruct (gzipNewReader blob) as [gz|e2]; [|done].
  destruct (ioutilReadAll gz) as [data|e3]; [|done].
  destruct (equal (sha256_hex data) (SHA256 resource)); simpl; [|done].
  by rewrite WriteFile_frame.
Qed.

(** A call fetches at most once: not at all on a cache hit, and exactly
    once, from RepositoryURL + URLPath with the declared hash of the
    compressed blob, otherwise, whatever happens afterwards. *)
Theorem ensure_fetches_at_most_once :
  forall c ctx name resource equal gzipNewReader ioutilReadAll env,
    let out := EnsureForSingleResource c ctx name resource equal
                 gzipNewReader ioutilReadAll env in
    (cache_hit c name resource equal env -> fetches (snd out) = fetches env) /\
    (~ cache_hit c name resource equal env ->
       fetches (snd out)
       = fetches env ++ [(RepositoryURL +:+ URLPath resource, GzSHA256 resource)]).
Proof.
  intros c ctx name resource equal gzipNewReader ioutilReadAll env out.
  subst out. rewrite ensure_split. split.
  - intros Hhit. by rewrite (precheck_hit _ _ _ _ _ Hhit).
  - intros Hmiss. destruct (precheck_miss _ _ _ _ _ Hmiss) as (env1 & -> & _ & Hf).
    by rewrite download_fetches, Hf.
Qed.

Lemma ensure_frame c ctx name resource equal gzipNewReader ioutilReadAll env p :
  p <> filepath_Join (WorkDir c) name ->
  fs (snd (EnsureForSingleResource c ctx name resource equal
             gzipNewReader ioutilReadAll env)) !! p
  = fs env !! p.
Proof.
  intros Hp. rewrite ensure_split.
  destruct (cache_hit_dec c name resource equal env) as [Hhit|Hmiss].
  - by rewrite (precheck_hit _ _ _ _ _ Hhit).
  - destruct (precheck_miss _ _ _ _ _ Hmiss) as (env1 & -> & Hfs & _).
    by rewrite download_frame, Hfs.
Qed.

(** A call never touches any file but workDir/name, whether it succeeds
    or fails and however the disk behaves. *)
Theorem ensure_touches_one_file :
  forall c ctx name resource equal gzipNewReader ioutilReadAll env p,
    p <> filepath_Join (WorkDir c) name ->
    fs (snd (EnsureForSingleResource c ctx name resource equal
               gzipNewReader ioutilReadAll env)) !! p
    = fs env !! p.
Proof.
  intros c ctx name resource equal gzipNewReader ioutilReadAll env p Hp.
  by apply ensure_frame.
Qed.

(** With a comparator that rejects everything (TestEnsureFailAllComparisons)
    a call never succeeds, always fetches exactly once, and leaves the
    working directory as it was; when the download itself goes through,
    the error is the sha256 mismatch. *)
Theorem ensure_rejecting_comparator :
  forall c ctx name resource equal gzipNewReader ioutilReadAll env,
    (forall a b, equal a b = false) ->
    let out := EnsureForSingleResource c ctx name resource equal
                 gzipNewReader ioutilReadAll env in
    fst out <> None /\
    fs (snd out) = fs env /\
    fetches (snd out)
      = fetches env ++ [(RepositoryURL +:+ URLPath resource, GzSHA256 resource)] /\
    (forall blob gz data,
       FetchAndVerify c ctx (RepositoryURL +:+ URLPath resource) (GzSHA256 resource)
         = Ok blob ->
       gzipNewReader blob = Ok gz -> ioutilReadAll gz = Ok data ->
       fst out = Some ("resources: " +:+ filepath_Join (WorkDir c) name
                         +:+ " sha256 mismatch")).
Proof.
  intros c ctx name resource equal gzipNewReader ioutilReadAll env Hno out.
  assert (Hmiss : ~ cache_hit c name resource equal env).
  { intros (d & _ & He). by rewrite Hno in He. }
  subst out. rewrite ensure_split.
  destruct (precheck_miss _ _ _ _ _ Hmiss) as (env1 & -> & Hfs & Hf).
  split; [|split; [|split]].
  - unfold download.
    destruct (FetchAndVerify c ctx _ _) as [blob|e1]; [|done].
    destruct (gzipNewReader blob) as [gz|e2]; [|done].
    destruct (ioutilReadAll gz) as [data|e3]; [|done].
    by rewrite Hno.
  - unfold download.
    destruct (FetchAndVerify c ctx _ _) as [blob|e1]; [|done].
    destruct (gzipNewReader blob) as [gz|e2]; [|done].
    destruct (ioutilReadAll gz) as [data|e3]; [|done].
    by rewrite Hno.
  - by rewrite download_fetches, Hf.
  - intros blob gz data H1 H2 H3. unfold download.
    by rewrite H1, H2, H3, Hno.
Qed.

(** When the local file is absent or rejected and the download, the
    decompression, the verification and the write all go through, the
    call returns nil and the file holds exactly the verified content. *)
Theorem ensure_installs_download :
  forall c ctx name resource equal gzipNewReader ioutilReadAll env blob gz data,
    ~ cache_hit c name resource equal env ->
    FetchAndVerify c ctx (RepositoryURL +:+ URLPath resource) (GzSHA256 resource)
      = Ok blob ->
    gzipNewReader blob = Ok gz -> ioutilReadAll gz = Ok data ->
    equal (sha256_hex data) (SHA256 resource) = true ->
    write_outcome (fs env) (filepath_Join (WorkDir c) name) data = WriteOk ->
    let out := EnsureForSingleResource c ctx name resource equal
                 gzipNewReader ioutilReadAll env in
    fst out = None /\
    fs (snd out) = <[filepath_Join (WorkDir c) name := data]> (fs env).
Proof.
  intros c ctx name resource equal gzipNewReader ioutilReadAll env blob gz data
    Hmiss H1 H2 H3 H4 H5 out.
  subst out. rewrite ensure_split.
  destruct (precheck_miss _ _ _ _ _ Hmiss) as (env1 & -> & Hfs & _).
  unfold download. rewrite H1, H2, H3, H4. simpl.
  unfold WriteFile. simpl. rewrite Hfs, H5. simpl. done.
Qed.

Lemma ensure_nil_hit c ctx name resource equal gzipNewReader ioutilReadAll env :
  fst (EnsureForSingleResource c ctx name resource equal
         gzipNewReader ioutilReadAll env) = None ->
  cache_hit c name resource equal
    (snd (EnsureForSingleResource c ctx name resource equal
            gzipNewReader ioutilReadAll env)).
Proof.
  rewrite ensure_split.
  destruct (cache_hit_dec c name resource equal env) as [Hhit|Hmiss].
  - by rewrite (precheck_hit _ _ _ _ _ Hhit).
  - destruct (precheck_miss _ _ _ _ _ Hmiss) as (env1 & Hp & Hfs & _).
    rewrite Hp. unfold download.
    destruct (FetchAndVerify c ctx _ _) as [blob|e1]; [|done].
    destruct (gzipNewReader blob) as [gz|e2]; [|done].
    destruct (ioutilReadAll gz) as [data|e3]; [|done].
    destruct (equal (sha256_hex data) (SHA256 resource)) eqn:Hsum; [|done].
    simpl. unfold WriteFile.
    destruct (write_outcome _ _ data) as [|[junk|] e]; try done.
    intros _. exists data. simpl. by rewrite lookup_insert_eq.
Qed.

(** A call that returned nil leaves a directory on which the same call
    is a cache hit: it returns nil again, fetches nothing and changes
    nothing. *)
Theorem ensure_twice :
  forall c ctx name resource equal gzipNewReader ioutilReadAll env,
    let out := EnsureForSingleResource c ctx name resource equal
                 gzipNewReader ioutilReadAll env in
    fst out = None ->
    cache_hit c name resource equal (snd out) /\
    EnsureForSingleResource c ctx name resource equal
      gzipNewReader ioutilReadAll (snd out) = (None, snd out).
Proof.
  intros c ctx name resource equal gzipNewReader ioutilReadAll env out Hnil.
  pose proof (ensure_nil_hit _ _ _ _ _ _ _ _ Hnil) as Hhit. fold out in Hhit.
  split; [exact Hhit|].
  by rewrite ensure_split, (precheck_hit _ _ _ _ _ Hhit).
Qed.

(** ** Ensure over a catalogue *)

Definition path_of (c : Client) (entry : string * ResourceInfo) : string :=
  filepath_Join (WorkDir c) entry.1.

(** Every entry of the catalogue is current. *)
Definition all_current (c : Client) (entries : list (string * ResourceInfo))
    (env : Env) : Prop :=
  Forall (fun entry => cache_hit c entry.1 entry.2 String.eqb env) entries.

Lemma Ensure_loop_app c ctx gzipNewReader ioutilReadAll l1 l2 env :
  Ensure_loop c ctx gzipNewReader ioutilReadAll (l1 ++ l2) env
  = match Ensure_loop c ctx gzipNewReader ioutilReadAll l1 env with
    | (Some e, env') => (Some e, env')
    | (None, env') => Ensure_loop c ctx gzipNewReader ioutilReadAll l2 env'
    end.
Proof.
  revert env. induction l1 as [|[name r] l1 IH]; intros env; simpl; [done|].
  destruct (EnsureForSingleResource _ _ _ _ _ _ _ _) as [[e|] env1]; [done|].
  apply IH.
Qed.

Lemma Ensure_loop_frame c ctx gzipNewReader ioutilReadAll entries : forall env p,
  p ∉ path_of c <$> entries ->
  fs (snd (Ensure_loop c ctx gzipNewReader ioutilReadAll entries env)) !! p
  = fs env !! p.
Proof.
  induction entries as [|[name r] entries IH]; intros env p Hp; simpl; [done|].
  rewrite fmap_cons in Hp. apply not_elem_of_cons in Hp as [Hne Hp].
  pose proof (ensure_frame c ctx name r String.eqb gzipNewReader ioutilReadAll
                env p Hne) as Hf.
  destruct (EnsureForSingleResource _ _ _ _ _ _ _ _) as [[e|] env1];
    simpl in *; [done|].
  by rewrite IH.
Qed.

Lemma Ensure_loop_current c ctx gzipNewReader ioutilReadAll entries env :
  all_current c entries env ->
  Ensure_loop c ctx gzipNewReader ioutilReadAll entries env = (None, env).
Proof.
  induction 1 as [|[name r] entries Hhit _ IH]; simpl; [done|].
  simpl in Hhit. by rewrite ensure_split, (precheck_hit _ _ _ _ _ Hhit).
Qed.

Lemma Ensure_loop_nil_current c ctx gzipNewReader ioutilReadAll entries :
  forall env env',
    NoDup (path_of c <$> entries) ->
    Ensure_loop c ctx gzipNewReader ioutilReadAll entries env = (None, env') ->
    all_current c entries env'.
Proof.
  induction entries as [|[name r] entries IH]; intros env env' Hnd H; simpl in H.
  - constructor.
  - rewrite fmap_cons in Hnd. apply NoDup_cons in Hnd as [Hnotin Hnd].
    pose proof (ensure_nil_hit c ctx name r String.eqb gzipNewReader ioutilReadAll
                  env) as Hhit.
    destruct (EnsureForSingleResource _ _ _ _ _ _ _ _) as [[e|] env1];
      simpl in *; [done|].
    constructor; [|by eapply IH].
    destruct (Hhit eq_refl) as (data & Hd & Heq). exists data. split; [|done].
    pose proof (Ensure_loop_frame c ctx gzipNewReader ioutilReadAll entries env1
                  _ Hnotin) as Hfr.
    rewrite H in Hfr. simpl in *. unfold path_of in Hfr. simpl in Hfr.
    by rewrite Hfr.
Qed.

(** Ensure visits the entries in turn and stops at the first one that
    fails: its error is returned and the entries after it are not looked
    at, so nothing is fetched or written for them. *)
Theorem ensure_stops_at_first_error :
  forall c ctx gzipNewReader ioutilReadAll l1 name r l2 env env1 env2 e,
    Ensure_loop c ctx gzipNewReader ioutilReadAll l1 env = (None, env1) ->
    EnsureForSingleResource c ctx name r String.eqb gzipNewReader ioutilReadAll env1
      = (Some e, env2) ->
    Ensure_loop c ctx gzipNewReader ioutilReadAll (l1 ++ (name, r) :: l2) env
      = (Some e, env2).
Proof.
  intros c ctx gzipNewReader ioutilReadAll l1 name r l2 env env1 env2 e H1 H2.
  rewrite Ensure_loop_app, H1. simpl. by rewrite H2.
Qed.

(** When Ensure returns nil on a catalogue whose entries name distinct
    files, every entry's file is present with exactly the declared
    sha256, and a second Ensure returns nil without fetching or changing
    anything (the second round of TestEnsure). *)
Theorem ensure_idempotent :
  forall c ctx gzipNewReader ioutilReadAll entries env env',
    NoDup (path_of c <$> entries) ->
    Ensure_loop c ctx gzipNewReader ioutilReadAll entries env = (None, env') ->
    Forall (fun entry => exists data,
              fs env' !! path_of c entry = Some data /\
              sha256_hex data = SHA256 entry.2) entries /\
    Ensure_loop c ctx gzipNewReader ioutilReadAll entries env' = (None, env').
Proof.
  intros c ctx gzipNewReader ioutilReadAll entries env env' Hnd H.
  pose proof (Ensure_loop_nil_current _ _ _ _ _ _ _ Hnd H) as Hcur.
  split; [|by apply Ensure_loop_current].
  eapply Forall_impl; [exact Hcur|]. intros [name r] (data & Hd & Heq).
  exists data. split; [done|]. by apply String.eqb_eq.
Qed.

End Ensure.

(** ** A working directory, a repository and a toy digest *)

Definition sample_Join (dir name : string) : string := dir +:+ "/" +:+ name.

(** A stand-in for the hex digest: it tells the bundle from the rest. *)
Definition sample_digest (data : bytes) : string :=
  match data with
  | [Byte.x2d; Byte.x2d] => "cb2eca3f"
  | _ => "e3b0c442"
  end.

Definition sample_fetch (c : Client) (ctx : unit) (url gzsha : string)
    : result bytes := Ok [Byte.x1f; Byte.x8b].

Definition sample_disk (f : gmap string bytes) (path : string) (data : bytes)
    : WriteOutcome := WriteOk.

Definition sample_client : Client := mkClient "ooniprobe-engine/0.1.0" "/tmp/work".

Definition ca_bundle : ResourceInfo :=
  mkResourceInfo "/releases/download/20190822135402/ca-bundle.pem.gz"
    "d5a6aa22" "cb2eca3f".

Definition sample_ensure
    (gzipNewReader : bytes -> result bytes) (env : Env) : error * Env :=
  EnsureForSingleResource sample_Join sample_digest "https://github.com/ooni/probe-assets"
    sample_fetch sample_disk sample_client tt "ca-bundle.pem" ca_bundle
    String.eqb gzipNewReader (fun gz => Ok gz) env.

Definition empty_dir : Env := mkEnv ∅ [] [].
Definition current_dir : Env :=
  mkEnv {["/tmp/work/ca-bundle.pem" := [Byte.x2d; Byte.x2d]]} [] [].

(** C6 on a directory that holds the bundle. *)
Lemma ensure_cache_hit_on_sample :
  fs current_dir !! sample_Join (WorkDir sample_client) "ca-bundle.pem"
    = Some [Byte.x2d; Byte.x2d] /\
  sample_ensure (fun _ => Err "unused") current_dir = (None, current_dir).
Proof.
  assert (Hf : fs current_dir !! sample_Join (WorkDir sample_client) "ca-bundle.pem"
               = Some [Byte.x2d; Byte.x2d]) by (vm_compute; reflexivity).
  split; [exact Hf|].
  exact (proj1 (ensure_cache_hit sample_Join sample_digest
                  "https://github.com/ooni/probe-assets" sample_fetch sample_disk
                  sample_client tt "ca-bundle.pem" ca_bundle String.eqb
                  (fun _ => Err "unused") (fun gz => Ok gz) current_dir
                  [Byte.x2d; Byte.x2d] Hf eq_refl)).
Defined.

(** C7 on an empty directory with a gzip reader that fails, as in
    TestEnsureFailGzipNewReader: the error comes back and the directory
    stays empty. *)
Lemma ensure_writes_only_verified_on_sample :
  ~ cache_hit sample_Join sample_digest sample_client "ca-bundle.pem" ca_bundle
      String.eqb empty_dir /\
  fst (sample_ensure (fun _ => Err "mocked error") empty_dir) = Some "mocked error" /\
  fs (snd (sample_ensure (fun _ => Err "mocked error") empty_dir)) = ∅.
Proof.
  assert (Hmiss : ~ cache_hit sample_Join sample_digest sample_client
                      "ca-bundle.pem" ca_bundle String.eqb empty_dir).
  { intros (data & Hd & _). simpl in Hd. by rewrite lookup_empty in Hd. }
  split; [exact Hmiss|].
  destruct (ensure_writes_only_verified sample_Join sample_digest
              "https://github.com/ooni/probe-assets" sample_fetch sample_disk
              sample_client tt "ca-bundle.pem" ca_bundle String.eqb
              (fun _ => Err "mocked error") (fun gz => Ok gz) empty_dir)
    as (H & _ & _).
  destruct (H Hmiss) as (_ & Hgz & _).
  exact (Hgz [Byte.x1f; Byte.x8b] "mocked error" eq_refl eq_refl).
Defined.

(** ** The extra properties on samples *)

(** A repository that serves one blob per declared hash, and a gzip
    reader that unpacks them. *)
Definition catalogue_fetch (c : Client) (ctx : unit) (url gzsha : string)
    : result bytes :=
  if String.eqb gzsha "d5a6aa22" then Ok [Byte.x1f] else Ok [Byte.x8b].

Definition sample_gunzip (blob : bytes) : result bytes :=
  match blob with
  | [Byte.x1f] => Ok [Byte.x2d; Byte.x2d]
  | _ => Ok [Byte.x00]
  end.

Definition asn_database : ResourceInfo :=
  mkResourceInfo "/releases/download/20190822135402/asn.mmdb.gz"
    "1a2b3c4d" "e3b0c442".

Definition sample_catalogue : list (string * ResourceInfo) :=
  [("ca-bundle.pem", ca_bundle); ("asn.mmdb", asn_database)].

Definition catalogue_ensure_one (name : string) (resource : ResourceInfo)
    (equal : string -> string -> bool) (gzipNewReader : bytes -> result bytes)
    (env : Env) : error * Env :=
  EnsureForSingleResource sample_Join sample_digest "https://github.com/ooni/probe-assets"
    catalogue_fetch sample_disk sample_client tt name resource
    equal gzipNewReader (fun gz => Ok gz) env.

Definition catalogue_ensure (gzipNewReader : bytes -> result bytes)
    (entries : list (string * ResourceInfo)) (env : Env) : error * Env :=
  Ensure_loop sample_Join sample_digest "https://github.com/ooni/probe-assets"
    catalogue_fetch sample_disk sample_client tt gzipNewReader (fun gz => Ok gz)
    entries env.

Lemma empty_dir_misses name resource equal :
  ~ cache_hit sample_Join sample_digest sample_client name resource equal empty_dir.
Proof. intros (data & Hd & _). simpl in Hd. by rewrite lookup_empty in Hd. Qed.

Lemma ensure_fetches_at_most_once_on_sample :
  fetches (snd (catalogue_ensure_one "ca-bundle.pem" ca_bundle String.eqb
                  (fun _ => Err "mocked error") empty_dir))
  = [("https://github.com/ooni/probe-assets/releases/download/20190822135402/ca-bundle.pem.gz",
      "d5a6aa22")].
Proof.
  exact (proj2 (ensure_fetches_at_most_once sample_Join sample_digest
                  "https://github.com/ooni/probe-assets" catalogue_fetch sample_disk
                  sample_client tt "ca-bundle.pem" ca_bundle String.eqb
                  (fun _ => Err "mocked error") (fun gz => Ok gz) empty_dir)
               (empty_dir_misses _ _ _)).
Defined.

Lemma ensure_touches_one_file_on_sample :
  "/tmp/work/asn.mmdb" <> sample_Join (WorkDir sample_client) "ca-bundle.pem" /\
  fs (snd (catalogue_ensure_one "ca-bundle.pem" ca_bundle String.eqb
             sample_gunzip empty_dir)) !! "/tmp/work/asn.mmdb" = None.
Proof.
  assert (Hne : "/tmp/work/asn.mmdb"
                <> sample_Join (WorkDir sample_client) "ca-bundle.pem")
    by (vm_compute; discriminate).
  split; [exact Hne|].
  exact (ensure_touches_one_file sample_Join sample_digest
           "https://github.com/ooni/probe-assets" catalogue_fetch sample_disk
           sample_client tt "ca-bundle.pem" ca_bundle String.eqb
           sample_gunzip (fun gz => Ok gz) empty_dir "/tmp/work/asn.mmdb" Hne).
Defined.

Lemma ensure_rejecting_comparator_on_sample :
  fst (catalogue_ensure_one "ca-bundle.pem" ca_bundle (fun _ _ => false)
         sample_gunzip current_dir)
    = Some "resources: /tmp/work/ca-bundle.pem sha256 mismatch" /\
  fs (snd (catalogue_ensure_one "ca-bundle.pem" ca_bundle (fun _ _ => false)
             sample_gunzip current_dir)) = fs current_dir.
Proof.
  destruct (ensure_rejecting_comparator sample_Join sample_digest
              "https://github.com/ooni/probe-assets" catalogue_fetch sample_disk
              sample_client tt "ca-bundle.pem" ca_bundle (fun _ _ => false)
              sample_gunzip (fun gz => Ok gz) current_dir (fun _ _ => eq_refl))
    as (_ & Hfs & _ & Hmis).
  split; [|exact Hfs].
  exact (Hmis [Byte.x1f] [Byte.x2d; Byte.x2d] [Byte.x2d; Byte.x2d]
           eq_refl eq_refl eq_refl).
Defined.

Lemma ensure_installs_download_on_sample :
  fst (catalogue_ensure_one "ca-bundle.pem" ca_bundle String.eqb
         sample_gunzip empty_dir) = None /\
  fs (snd (catalogue_ensure_one "ca-bundle.pem" ca_bundle String.eqb
             sample_gunzip empty_dir))
    = {["/tmp/work/ca-bundle.pem" := [Byte.x2d; Byte.x2d]]}.
Proof.
  exact (ensure_installs_download sample_Join sample_digest
           "https://github.com/ooni/probe-assets" catalogue_fetch sample_disk
           sample_client tt "ca-bundle.pem" ca_bundle String.eqb
           sample_gunzip (fun gz => Ok gz) empty_dir
           [Byte.x1f] [Byte.x2d; Byte.x2d] [Byte.x2d; Byte.x2d]
           (empty_dir_misses _ _ _) eq_refl eq_refl eq_refl eq_refl eq_refl).
Defined.

Lemma ensure_twice_on_sample :
  fst (catalogue_ensure_one "ca-bundle.pem" ca_bundle String.eqb
         sample_gunzip empty_dir) = None /\
  catalogue_ensure_one "ca-bundle.pem" ca_bundle String.eqb sample_gunzip
    (snd (catalogue_ensure_one "ca-bundle.pem" ca_bundle String.eqb
            sample_gunzip empty_dir))
  = (None, snd (catalogue_ensure_one "ca-bundle.pem" ca_bundle String.eqb
                  sample_gunzip empty_dir)).
Proof.
  assert (Hnil : fst (catalogue_ensure_one "ca-bundle.pem" ca_bundle String.eqb
                        sample_gunzip empty_dir) = None) by reflexivity.
  split; [exact Hnil|].
  exact (proj2 (ensure_twice sample_Join sample_digest
                  "https://github.com/ooni/probe-assets" catalogue_fetch sample_disk
                  sample_client tt "ca-bundle.pem" ca_bundle String.eqb
                  sample_gunzip (fun gz => Ok gz) empty_dir Hnil)).
Defined.

Lemma ensure_stops_at_first_error_on_sample :
  fst (catalogue_ensure (fun _ => Err "mocked error") sample_catalogue empty_dir)
    = Some "mocked error" /\
  length (fetches (snd (catalogue_ensure (fun _ => Err "mocked error")
                          sample_catalogue empty_dir))) = 1%nat.
Proof.
  pose proof (ensure_stops_at_first_error sample_Join sample_digest
             "https://github.com/ooni/probe-assets" catalogue_fetch sample_disk
             sample_client tt (fun _ => Err "mocked error") (fun gz => Ok gz)
             [] "ca-bundle.pem" ca_bundle [("asn.mmdb", asn_database)]
             empty_dir empty_dir _ "mocked error" eq_refl eq_refl) as H.
  change (catalogue_ensure (fun _ => Err "mocked error") sample_catalogue empty_dir
          = (Some "mocked error",
             snd (catalogue_ensure_one "ca-bundle.pem" ca_bundle String.eqb
                    (fun _ => Err "mocked error") empty_dir))) in H.
  rewrite H. split; reflexivity.
Defined.

Lemma ensure_idempotent_on_sample :
  exists env',
    catalogue_ensure sample_gunzip sample_catalogue empty_dir = (None, env') /\
    catalogue_ensure sample_gunzip sample_catalogue env' = (None, env').
Proof.
  eexists. split; [reflexivity|].
  refine (proj2 (ensure_idempotent sample_Join sample_digest
                   "https://github.com/ooni/probe-assets" catalogue_fetch sample_disk
                   sample_client tt sample_gunzip (fun gz => Ok gz)
                   sample_catalogue empty_dir _ _ eq_refl)).
  apply NoDup_cons. split; [|apply NoDup_singleton].
  intros Hin. apply list_elem_of_singleton in Hin. vm_compute in Hin. discriminate.
Defined.

End Resources.

(* ===================================================================== *)
(** * experiment/tor/tor.go *)
(* ===================================================================== *)

Module Tor.

(** int64 arithmetic: the value of a sum after wrap-around. *)
Definition min_int64 : Z := - 2 ^ 63.
Definition max_int64 : Z := 2 ^ 63 - 1.
Definition wrap64 (z : Z) : Z := (z + 2 ^ 63) mod 2 ^ 64 - 2 ^ 63.
Definition in_int64 (z : Z) : Prop := min_int64 <= z <= max_int64.

(** model.TorTarget *)
Record TorTarget := mkTorTarget {
  Address : string;
  Protocol : string;
  Params : gmap string (list string)
}.

Record keytarget := mkKeytarget { key : string; target : TorTarget }.

(** context.Context: the background context or a child carrying a
    deadline (time in nanoseconds). A child is done when its parent is. *)
Inductive Context :=
| Background
| WithDeadline (parent : Context) (d : Z).

Definition second : Z := 1000000000.

(** context.WithTimeout(parent, timeout) called at time [now]. *)
Definition WithTimeout (parent : Context) (now timeout : Z) : Context :=
  WithDeadline parent (now + timeout).

(** ctx.Deadline(): the earliest deadline on the way to the root. *)
Fixpoint Deadline (ctx : Context) : option Z :=
  match ctx with
  | Background => None
  | WithDeadline parent d =>
      match Deadline parent with
      | Some d' => Some (Z.min d d')
      | None => Some d
      end
  end.

(** [descends ctx anc]: [ctx] is [anc] or was derived from it, so that
    cancelling [anc] cancels [ctx]. *)
Fixpoint descends (ctx anc : Context) : Prop :=
  ctx = anc \/
  match ctx with
  | Background => False
  | WithDeadline parent _ => descends parent anc
  end.

(** func errString(err error) (s string) *)
Definition errString (err : error) : string :=
  match err with
  | Some d => d
  | None => "success"
  end.

(** func setFailure(err error) (s *string) *)
Definition setFailure (err : error) : option string :=
  match err with
  | Some descr => Some descr
  | None => None
  end.

(** The progress fraction. A float64 value is modelled by the rational it
    denotes, in lowest terms: [float64(sofar) / float64(total)] is
    [sofar / total]. *)
Definition percentage (sofar total : Z) : Q :=
  if total >? 0 then Qred (Qmake sofar (Z.to_pos total)) else 0%Q.

(** float64(n) / 1024.0 *)
Definition kibi (n : Z) : Q := Qred (Qmake n 1024).

(** fmt.Sprintf("tor: access %s/%s: %s", address, protocol, errString(err)) *)
Definition progress_message (t : TorTarget) (err : error) : string :=
  "tor: access " +:+ Address t +:+ "/" +:+ Protocol t +:+ ": " +:+ errString err.

Section Collector.

(** oonitemplates.Results and the oonidatamodel lists built from it are
    declared outside these sources; the collector reads the two byte
    counters and passes the rest on. *)
Context {Results NetworkEventsList DNSQueriesList RequestList
         TCPConnectList TLSHandshakesList : Type}.
Variable SentBytes : Results -> Z.
Variable ReceivedBytes : Results -> Z.
Variable NewNetworkEventsList : Results -> NetworkEventsList.
Variable NewDNSQueriesList : Results -> DNSQueriesList.
Variable NewRequestList : Results -> RequestList.
Variable NewTCPConnectList : Results -> TCPConnectList.
Variable NewTLSHandshakesList : Results -> TLSHandshakesList.

(** The field rc.flexibleConnect: what the probe of a target under a
    context returns. *)
Variable flexibleConnect : Context -> TorTarget -> Results * error.

(** TargetResults *)
Record TargetResults := mkTargetResults {
  Agent : string;
  Failure : option string;
  NetworkEvents : NetworkEventsList;
  Queries : DNSQueriesList;
  Requests : RequestList;
  TargetAddress : string;
  TargetProtocol : string;
  TCPConnect : TCPConnectList;
  TLSHandshakes : TLSHandshakesList
}.

(** The composite literal stored by measureSingleTarget. *)
Definition newTargetResults (t : TorTarget) (tk : Results) (err : error)
    : TargetResults :=
  {| Agent := "redirect";
     Failure := setFailure err;
     NetworkEvents := NewNetworkEventsList tk;
     Queries := NewDNSQueriesList tk;
     Requests := NewRequestList tk;
     TargetAddress := Address t;
     TargetProtocol := Protocol t;
     TCPConnect := NewTCPConnectList tk;
     TLSHandshakes := NewTLSHandshakesList tk |}.

(** Where the goroutine running measureTargets stands: ranging over the
    entries not yet sent (and closing the channel once none is left),
    waiting on the wait group, filling the measurement, returned. *)
Inductive MainPC :=
| MRange (remaining : gmap string TorTarget)
| MWait
| MFill
| MReturned.

(** The statements of measureSingleTarget after the probe, in order. *)
Inductive Phase :=
| PLock | PStore | PUnlock | PAddSent | PAddReceived | PAddCompleted | PDone.

(** Where a worker stands: receiving from the channel, probing, inside
    measureSingleTarget with the probe's results, about to report
    progress with the counter value it drew, or past the loop. *)
Inductive WorkerPC :=
| WRecv
| WConnect (kt : keytarget)
| WRun (ph : Phase) (kt : keytarget) (tk : Results) (err : error)
| WProgress (kt : keytarget) (tk : Results) (err : error) (sofar : Z)
| WExit.

(** The shared state: control points, the channel, the wait group, the
    fields of resultsCollector, and what the callbacks, the probes and the
    measurement have received. *)
Record State := mkState {
  main : MainPC;                             (* the caller of measureTargets *)
  workers : list WorkerPC;                   (* the goroutines it started *)
  closed : bool;                             (* close(workch) has happened *)
  wg : Z;                                    (* the counter of waitgroup *)
  mu : bool;                                 (* rc.mu is held *)
  targetresults : gmap string TargetResults; (* rc.targetresults *)
  sentBytes : Z;                             (* rc.sentBytes *)
  receivedBytes : Z;                         (* rc.receivedBytes *)
  completed : Z;                             (* rc.completed *)
  progress : list (Q * string);              (* calls of OnProgress, oldest first *)
  connects : list (Context * TorTarget);     (* calls of rc.flexibleConnect *)
  testkeys : option (gmap string TargetResults); (* measurement.TestKeys.Targets *)
  datausage : option (Q * Q)                 (* the call of OnDataUsage *)
}.

Definition with_main (x : MainPC) (s : State) : State :=
  mkState x (workers s) (closed s) (wg s) (mu s) (targetresults s) (sentBytes s)
    (receivedBytes s) (completed s) (progress s) (connects s) (testkeys s) (datausage s).
Definition with_workers (x : list WorkerPC) (s : State) : State :=
  mkState (main s) x (closed s) (wg s) (mu s) (targetresults s) (sentBytes s)
    (receivedBytes s) (completed s) (progress s) (connects s) (testkeys s) (datausage s).
Definition with_closed (x : bool) (s : State) : State :=
  mkState (main s) (workers s) x (wg s) (mu s) (targetresults s) (sentBytes s)
    (receivedBytes s) (completed s) (progress s) (connects s) (testkeys s) (datausage s).
Definition with_wg (x : Z) (s : State) : State :=
  mkState (main s) (workers s) (closed s) x (mu s) (targetresults s) (sentBytes s)
    (receivedBytes s) (completed s) (progress s) (connects s) (testkeys s) (datausage s).
Definition with_mu (x : bool) (s : State) : State :=
  mkState (main s) (workers s) (closed s) (wg s) x (targetresults s) (sentBytes s)
    (receivedBytes s) (completed s) (progress s) (connects s) (testkeys s) (datausage s).
Definition with_targetresults (x : gmap string TargetResults) (s : State) : State :=
  mkState (main s) (workers s) (closed s) (wg s) (mu s) x (sentBytes s)
    (receivedBytes s) (completed s) (progress s) (connects s) (testkeys s) (datausage s).
Definition with_sentBytes (x : Z) (s : State) : State :=
  mkState (main s) (workers s) (closed s) (wg s) (mu s) (targetresults s) x
    (receivedBytes s) (completed s) (progress s) (connects s) (testkeys s) (datausage s).
Definition with_receivedBytes (x : Z) (s : State) : State :=
  mkState (main s) (workers s) (closed s) (wg s) (mu s) (targetresults s) (sentBytes s)
    x (completed s) (progress s) (connects s) (testkeys s) (datausage s).
Definition with_completed (x : Z) (s : State) : State :=
  mkState (main s) (workers s) (closed s) (wg s) (mu s) (targetresults s) (sentBytes s)
    (receivedBytes s) x (progress s) (connects s) (testkeys s) (datausage s).
Definition with_progress (x : list (Q * string)) (s : State) : State :=
  mkState (main s) (workers s) (closed s) (wg s) (mu s) (targetresults s) (sentBytes s)
    (receivedBytes s) (completed s) x (connects s) (testkeys s) (datausage s).
Definition with_connects (x : list (Context * TorTarget)) (s : State) : State :=
  mkState (main s) (workers s) (closed s) (wg s) (mu s) (targetresults s) (sentBytes s)
    (receivedBytes s) (completed s) (progress s) x (testkeys s) (datausage s).
Definition with_output (tk : gmap string TargetResults) (du : Q * Q) (s : State) : State :=
  mkState (main s) (workers s) (closed s) (wg s) (mu s) (targetresults s) (sentBytes s)
    (receivedBytes s) (completed s) (progress s) (connects s) (Some tk) (Some du).

Definition set_worker (w : nat) (pc : WorkerPC) (s : State) : State :=
  with_workers (<[w := pc]> (workers s)) s.

(** func (rc *resultsCollector) measureSingleTarget(ctx, kt, total), one
    statement at a time, as run by worker [w] standing at [pc]. [None]
    means that the worker cannot move: the mutex is taken (or [pc] is not
    inside the function). *)
Definition measureSingleTarget (ctx : Context) (total : Z) (w : nat)
    (pc : WorkerPC) (s : State) : option State :=
  match pc with
  | WConnect kt =>
      let '(tk, err) := flexibleConnect ctx (target kt) in
      Some (set_worker w (WRun PLock kt tk err)
              (with_connects (connects s ++ [(ctx, target kt)]) s))
  | WRun PLock kt tk err =>
      if mu s then None
      else Some (set_worker w (WRun PStore kt tk err) (with_mu true s))
  | WRun PStore kt tk err =>
      Some (set_worker w (WRun PUnlock kt tk err)
              (with_targetresults
                 (<[key kt := newTargetResults (target kt) tk err]> (targetresults s)) s))
  | WRun PUnlock kt tk err =>
      Some (set_worker w (WRun PAddSent kt tk err) (with_mu false s))
  | WRun PAddSent kt tk err =>
      Some (set_worker w (WRun PAddReceived kt tk err)
              (with_sentBytes (wrap64 (sentBytes s + SentBytes tk)) s))
  | WRun PAddReceived kt tk err =>
      Some (set_worker w (WRun PAddCompleted kt tk err)
              (with_receivedBytes (wrap64 (receivedBytes s + ReceivedBytes tk)) s))
  | WRun PAddCompleted kt tk err =>
      let sofar := wrap64 (completed s + 1) in
      Some (set_worker w (WProgress kt tk err sofar) (with_completed sofar s))
  | WProgress kt tk err sofar =>
      Some (set_worker w (WRun PDone kt tk err)
              (with_progress
                 (progress s ++ [(percentage sofar total,
                                  progress_message (target kt) err)]) s))
  | WRun PDone _ _ _ | WRecv | WExit => None
  end.

(** One statement of worker [w], the goroutine started by measureTargets:
      for kt := range ch { rc.measureSingleTarget(ctx, kt, total);
                           waitgroup.Done() }
    [None] means that the worker cannot move: it is blocked or gone. *)
Definition worker_step (ctx : Context) (total : Z) (w : nat) (s : State)
    : option State :=
  match workers s !! w with
  | None => None
  | Some WRecv =>
      (* leaves the loop once the channel is closed; a receive happens
         together with a send, see [send_step] *)
      if closed s then Some (set_worker w WExit s) else None
  | Some (WRun PDone kt tk err) =>
      (* waitgroup.Done(), then back to the head of the loop *)
      Some (set_worker w WRecv (with_wg (wg s - 1) s))
  | Some WExit => None
  | Some pc => measureSingleTarget ctx total w pc s
  end.

(** workch <- keytarget{key, target} for the entry [k] of the map, taken
    by worker [w]. The channel has no buffer: the send happens only
    together with a receive. *)
Definition send_step (k : string) (w : nat) (s : State) : option State :=
  match main s, workers s !! w with
  | MRange remaining, Some WRecv =>
      match remaining !! k with
      | Some t =>
          Some (set_worker w (WConnect (mkKeytarget k t))
                  (with_main (MRange (delete k remaining)) s))
      | None => None
      end
  | _, _ => None
  end.

(** The statements of measureTargets that involve no worker: close(workch)
    once the range is exhausted, waitgroup.Wait(), and the final
    assignments and OnDataUsage call. *)
Definition main_step (s : State) : option State :=
  match main s with
  | MRange remaining =>
      if decide (remaining = ∅)
      then Some (with_main MWait (with_closed true s))
      else None
  | MWait => if wg s =? 0 then Some (with_main MFill s) else None
  | MFill =>
      Some (with_main MReturned
              (with_output (targetresults s)
                 (kibi (receivedBytes s), kibi (sentBytes s)) s))
  | MReturned => None
  end.

Inductive Label :=
| LSend (k : string) (w : nat)
| LMain
| LWorker (w : nat).

Definition step (ctx : Context) (total : Z) (l : Label) (s : State) : option State :=
  match l with
  | LSend k w => send_step k w s
  | LMain => main_step s
  | LWorker w => worker_step ctx total w s
  end.

(** A schedule is the order in which the goroutines take their steps. *)
Fixpoint steps (ctx : Context) (total : Z) (sched : list Label) (s : State)
    : option State :=
  match sched with
  | [] => Some s
  | l :: rest =>
      match step ctx total l s with
      | Some s' => steps ctx total rest s'
      | None => None
      end
  end.

Definition parallelism : nat := 2.

(** The state of measureTargets once the collector, the wait group, the
    channel and the workers have been set up. *)
Definition init (targets : gmap string TorTarget) : State :=
  {| main := MRange targets;
     workers := replicate parallelism WRecv;
     closed := false;
     wg := Z.of_nat (size targets);
     mu := false;
     targetresults := ∅;
     sentBytes := 0;
     receivedBytes := 0;
     completed := 0;
     progress := [];
     connects := [];
     testkeys := None;
     datausage := None |}.

(** measureTargets(ctx, sess, measurement, callbacks, targets) under the
    schedule [sched]. *)
Definition measureTargets (ctx : Context) (targets : gmap string TorTarget)
    (sched : list Label) : option State :=
  steps ctx (Z.of_nat (size targets)) sched (init targets).

(** What measure does before the fan-out: the context it hands to
    testlists.Query, and either the error of the query or the context and
    targets it hands to measureTargets. *)
Inductive MeasureOutcome :=
| QueryFailed (e : string)
| FanOut (ctx : Context) (targets : gmap string TorTarget).

Record MeasureCall := mkMeasureCall {
  query_ctx : Context;
  outcome : MeasureOutcome
}.

(** func (m *measurer) measure(origCtx, sess, measurement, callbacks) error,
    called at time [now]; [Query] is testlists.Query. *)
Definition measure (origCtx : Context) (now : Z)
    (Query : Context -> gmap string TorTarget * error) : MeasureCall :=
  let ctx := WithTimeout origCtx now (60 * second) in
  let '(targets, err) := Query ctx in
  {| query_ctx := ctx;
     outcome := match err with
                | None => FanOut origCtx targets
                | Some e => QueryFailed e
                end |}.

(** The fan-out of a measure call under a schedule. *)
Definition measure_run (origCtx : Context) (now : Z)
    (Query : Context -> gmap string TorTarget * error)
    (sched : list Label) : option State :=
  match outcome (measure origCtx now Query) with
  | FanOut ctx targets => measureTargets ctx targets sched
  | QueryFailed _ => None
  end.

(** ** Sums and counts over the workers and over a map of targets *)

Definition Zsum (l : list Z) : Z := foldr Z.add 0 l.

Definition wsum (f : WorkerPC -> Z) (ws : list WorkerPC) : Z := Zsum (f <$> ws).

Definition msum (f : TorTarget -> Z) (m : gmap string TorTarget) : Z :=
  Zsum ((fun kt => f kt.2) <$> map_to_list m).

Definition wlist {A} (g : WorkerPC -> list A) (ws : list WorkerPC) : list A :=
  ws ≫= g.

Definition mlist {A} (g : TorTarget -> A) (m : gmap string TorTarget) : list A :=
  (fun kt => g kt.2) <$> map_to_list m.

Lemma Zsum_cons (x : Z) (l : list Z) : Zsum (x :: l) = x + Zsum l.
Proof. reflexivity. Qed.

Lemma Zsum_app (l1 l2 : list Z) : Zsum (l1 ++ l2) = Zsum l1 + Zsum l2.
Proof. unfold Zsum. induction l1 as [|x l1 IH]; simpl; lia. Qed.

Lemma Zsum_perm (l1 l2 : list Z) : l1 ≡ₚ l2 -> Zsum l1 = Zsum l2.
Proof. unfold Zsum. induction 1; simpl; lia. Qed.

Lemma lookup_insert_split {A} (l : list A) (i : nat) (x y : A) :
  l !! i = Some x ->
  exists l1 l2, l = l1 ++ x :: l2 /\ <[i:=y]> l = l1 ++ y :: l2.
Proof.
  intros H. exists (take i l), (drop (S i) l). split.
  - by rewrite take_drop_middle.
  - apply insert_take_drop. by eapply lookup_lt_Some.
Qed.

Lemma wsum_insert f (ws : list WorkerPC) w pc pc' :
  ws !! w = Some pc ->
  wsum f (<[w:=pc']> ws) = wsum f ws - f pc + f pc'.
Proof.
  intros H. destruct (lookup_insert_split ws w pc pc' H) as (l1 & l2 & E1 & E2).
  rewrite E2. rewrite E1 at 1. unfold wsum.
  rewrite !fmap_app, !Zsum_app. simpl. lia.
Qed.

Lemma wlist_insert {A} (g : WorkerPC -> list A) (ws : list WorkerPC) w pc pc' :
  ws !! w = Some pc ->
  g pc ++ wlist g (<[w:=pc']> ws) ≡ₚ g pc' ++ wlist g ws.
Proof.
  intros H. destruct (lookup_insert_split ws w pc pc' H) as (l1 & l2 & E1 & E2).
  rewrite E2. rewrite E1 at 1. unfold wlist.
  rewrite !bind_app, !bind_cons. solve_Permutation.
Qed.

Lemma wlist_insert_same {A} (g : WorkerPC -> list A) (ws : list WorkerPC) w pc pc' :
  ws !! w = Some pc -> g pc = g pc' ->
  wlist g (<[w:=pc']> ws) = wlist g ws.
Proof.
  intros H Hg. destruct (lookup_insert_split ws w pc pc' H) as (l1 & l2 & E1 & E2).
  rewrite E2. rewrite E1 at 1. unfold wlist.
  rewrite !bind_app, !bind_cons. by rewrite Hg.
Qed.

Lemma msum_empty f : msum f ∅ = 0.
Proof. unfold msum. by rewrite map_to_list_empty. Qed.

Lemma msum_delete f (m : gmap string TorTarget) k t :
  m !! k = Some t -> msum f (delete k m) = msum f m - f t.
Proof.
  intros H. unfold msum.
  pose proof (map_to_list_delete m k t H) as P.
  apply (fmap_Permutation (fun kt => f kt.2)), Zsum_perm in P.
  rewrite <- P, fmap_cons, Zsum_cons. cbn [snd]. lia.
Qed.

Lemma mlist_empty {A} (g : TorTarget -> A) : mlist g ∅ = [].
Proof. unfold mlist. by rewrite map_to_list_empty. Qed.

Lemma mlist_delete {A} (g : TorTarget -> A) (m : gmap string TorTarget) k t :
  m !! k = Some t -> g t :: mlist g (delete k m) ≡ₚ mlist g m.
Proof.
  intros H. unfold mlist.
  pose proof (map_to_list_delete m k t H) as P.
  by apply (fmap_Permutation (fun kt => g kt.2)) in P.
Qed.

(** ** int64 wrap-around *)

Lemma wrap64_in_range z : in_int64 z -> wrap64 z = z.
Proof.
  unfold in_int64, min_int64, max_int64, wrap64. intros H.
  rewrite Z.mod_small; lia.
Qed.

Lemma wrap64_add_l a b : wrap64 (wrap64 a + b) = wrap64 (a + b).
Proof.
  unfold wrap64.
  replace (((a + 2 ^ 63) mod 2 ^ 64 - 2 ^ 63) + b + 2 ^ 63)
    with ((a + 2 ^ 63) mod 2 ^ 64 + b) by lia.
  rewrite Zplus_mod_idemp_l. f_equal. f_equal. lia.
Qed.

Lemma wsum_nonneg f (ws : list WorkerPC) :
  (forall pc, 0 <= f pc) -> 0 <= wsum f ws.
Proof.
  intros Hf. unfold wsum. induction ws as [|pc ws IH]; [done|].
  rewrite fmap_cons, Zsum_cons. specialize (Hf pc). lia.
Qed.

Lemma wsum_pos_lookup f (ws : list WorkerPC) :
  (forall pc, 0 <= f pc) -> 0 < wsum f ws ->
  exists w pc, ws !! w = Some pc /\ 0 < f pc.
Proof.
  intros Hf. unfold wsum. induction ws as [|pc ws IH].
  - unfold Zsum. simpl. lia.
  - rewrite fmap_cons, Zsum_cons. intros H.
    destruct (decide (0 < f pc)) as [Hpos|Hnpos].
    + exists 0%nat, pc. done.
    + destruct IH as (w & pc' & Hw & Hpc'); [specialize (Hf pc); lia|].
      exists (S w), pc'. done.
Qed.

Lemma wsum_ge_lookup f (ws : list WorkerPC) w pc :
  (forall pc, 0 <= f pc) -> ws !! w = Some pc -> f pc <= wsum f ws.
Proof.
  intros Hf Hw.
  destruct (lookup_insert_split ws w pc pc Hw) as (l1 & l2 & E & _).
  rewrite E. unfold wsum. rewrite fmap_app, Zsum_app, fmap_cons, Zsum_cons.
  pose proof (wsum_nonneg f l1 Hf). pose proof (wsum_nonneg f l2 Hf).
  unfold wsum in *. lia.
Qed.

Lemma wsum_zero_lookup f (ws : list WorkerPC) w pc :
  (forall pc, 0 <= f pc) -> wsum f ws = 0 -> ws !! w = Some pc -> f pc = 0.
Proof.
  intros Hf Hz Hw.
  destruct (lookup_insert_split ws w pc pc Hw) as (l1 & l2 & E & _).
  rewrite E in Hz. unfold wsum in Hz.
  rewrite fmap_app, Zsum_app, fmap_cons, Zsum_cons in Hz.
  pose proof (wsum_nonneg f l1 Hf). pose proof (wsum_nonneg f l2 Hf).
  unfold wsum in *. specialize (Hf pc). lia.
Qed.

Arguments wsum : simpl never.
Arguments msum : simpl never.
Arguments wlist : simpl never.
Arguments mlist : simpl never.
Arguments wrap64 : simpl never.
Arguments percentage : simpl never.
Arguments kibi : simpl never.

(** ** The invariant of a fan-out *)

Section Invariants.

Variable ctx : Context.
Variable targets : gmap string TorTarget.

Local Abbreviation total := (Z.of_nat (size targets)).

(** What the probe of a target returns, and the record built from it. *)
Definition sent_of (t : TorTarget) : Z := SentBytes (flexibleConnect ctx t).1.
Definition received_of (t : TorTarget) : Z := ReceivedBytes (flexibleConnect ctx t).1.
Definition message_of (t : TorTarget) : string :=
  progress_message t (flexibleConnect ctx t).2.
Definition record_of (t : TorTarget) : TargetResults :=
  newTargetResults t (flexibleConnect ctx t).1 (flexibleConnect ctx t).2.

(** The expected results: one record per target. *)
Definition expected_results : gmap string TargetResults := record_of <$> targets.

(** The entries the range statement has not sent yet. *)
Definition pending (m : MainPC) : gmap string TorTarget :=
  match m with
  | MRange r => r
  | _ => ∅
  end.
Arguments pending !m : simpl nomatch.

Local Abbreviation remaining s := (pending (main s)).

(** A worker's locals agree with the target map and with the probe. *)
Definition wpc_ok (pc : WorkerPC) : Prop :=
  match pc with
  | WRecv | WExit => True
  | WConnect kt => targets !! key kt = Some (target kt)
  | WRun _ kt tk err | WProgress kt tk err _ =>
      targets !! key kt = Some (target kt) /\
      flexibleConnect ctx (target kt) = (tk, err)
  end.

(** Indicators of where a worker stands, and what it still owes to the
    shared counters and to the progress callback. *)
Definition ind {A} (o : option A) : Z :=
  match o with Some _ => 1 | None => 0 end.

Definition busy (pc : WorkerPC) : Z :=
  match pc with
  | WConnect _ | WRun _ _ _ _ | WProgress _ _ _ _ => 1
  | _ => 0
  end.

Definition exited (pc : WorkerPC) : Z :=
  match pc with WExit => 1 | _ => 0 end.

Definition holds_lock (pc : WorkerPC) : Z :=
  match pc with
  | WRun PStore _ _ _ | WRun PUnlock _ _ _ => 1
  | _ => 0
  end.

Definition storing (k : string) (pc : WorkerPC) : Z :=
  match pc with
  | WConnect kt | WRun PLock kt _ _ | WRun PStore kt _ _ =>
      if decide (key kt = k) then 1 else 0
  | _ => 0
  end.

Definition owed_sent (pc : WorkerPC) : Z :=
  match pc with
  | WConnect kt => sent_of (target kt)
  | WRun PLock _ tk _ | WRun PStore _ tk _ | WRun PUnlock _ tk _
  | WRun PAddSent _ tk _ => SentBytes tk
  | _ => 0
  end.

Definition owed_received (pc : WorkerPC) : Z :=
  match pc with
  | WConnect kt => received_of (target kt)
  | WRun PLock _ tk _ | WRun PStore _ tk _ | WRun PUnlock _ tk _
  | WRun PAddSent _ tk _ | WRun PAddReceived _ tk _ => ReceivedBytes tk
  | _ => 0
  end.

Definition drawn (pc : WorkerPC) : list Q :=
  match pc with
  | WProgress _ _ _ sofar => [percentage sofar total]
  | _ => []
  end.

Definition owed_message (pc : WorkerPC) : list string :=
  match pc with
  | WConnect kt => [message_of (target kt)]
  | WRun PDone _ _ _ => []
  | WRun _ kt _ err | WProgress kt _ err _ => [progress_message (target kt) err]
  | _ => []
  end.

(** The number of increments of rc.completed so far. *)
Definition increments (s : State) : nat :=
  (length (progress s) + length (wlist drawn (workers s)))%nat.

(** The fraction that goes with the k-th increment. *)
Definition fraction (k : nat) : Q := percentage (wrap64 (Z.of_nat k)) total.

Record Inv (s : State) : Prop := mkInv {
  inv_len : length (workers s) = parallelism;
  inv_wok : Forall wpc_ok (workers s);
  inv_rem : remaining s ⊆ targets;
  inv_closed : closed s = match main s with MRange _ => false | _ => true end;
  inv_exit : closed s = false -> wsum exited (workers s) = 0;
  inv_mu : Z.b2z (mu s) = wsum holds_lock (workers s);
  inv_wg : wg s = Z.of_nat (size (remaining s)) + wsum busy (workers s);
  inv_quiet : match main s with MFill | MReturned => wg s = 0 | _ => True end;
  inv_sound : forall k r, targetresults s !! k = Some r ->
                exists t, targets !! k = Some t /\ r = record_of t;
  inv_cover : forall k t, targets !! k = Some t ->
                1 <= ind (remaining s !! k) + wsum (storing k) (workers s)
                     + ind (targetresults s !! k);
  inv_sent : sentBytes s =
               wrap64 (msum sent_of targets - msum sent_of (remaining s)
                       - wsum owed_sent (workers s));
  inv_received : receivedBytes s =
               wrap64 (msum received_of targets - msum received_of (remaining s)
                       - wsum owed_received (workers s));
  inv_completed : completed s = wrap64 (Z.of_nat (increments s));
  inv_fractions : (progress s).*1 ++ wlist drawn (workers s)
                    ≡ₚ fraction <$> seq 1 (increments s);
  inv_messages : (progress s).*2 ++ wlist owed_message (workers s)
                   ++ mlist message_of (remaining s)
                    ≡ₚ mlist message_of targets;
  inv_connects : Forall (fun ct => ct.1 = ctx) (connects s);
  inv_output : main s = MReturned ->
                 testkeys s = Some (targetresults s) /\
                 datausage s = Some (kibi (receivedBytes s), kibi (sentBytes s))
}.

(** Case analysis on a step. *)
Ltac step_cases H :=
  unfold step, send_step, main_step, worker_step, measureSingleTarget in H;
  repeat match type of H with
  | context [match ?x with _ => _ end] => destruct x eqn:?; cbn beta iota in H
  end;
  try discriminate H;
  try (injection H as H; symmetry in H; subst).

Ltac wsums :=
  repeat match goal with
  | H : workers _ !! _ = Some _ |- context [wsum ?f (<[_:=?pc']> _)] =>
      rewrite (wsum_insert f _ _ _ pc' H)
  end.

Lemma init_Inv : Inv (init targets).
Proof.
  split; try done.
  - repeat constructor.
  - change (wsum busy (workers (init targets))) with 0. simpl. lia.
  - intros k t H.
    change (wsum (storing k) (workers (init targets))) with 0.
    simpl. rewrite H, lookup_empty. simpl. lia.
  - change (wsum owed_sent (workers (init targets))) with 0.
    simpl. replace (_ - _ - _) with 0 by lia. done.
  - change (wsum owed_received (workers (init targets))) with 0.
    simpl. replace (_ - _ - _) with 0 by lia. done.
Qed.

Ltac inv_fields I :=
  destruct I as [Hlen Hwok Hrem Hclosed Hexit Hmu Hwg Hquiet Hsound Hcover
                 Hsent Hrecv Hcompleted Hfrac Hmsgs Hconn Hout].

(** Split a step into its cases, then unpack the invariant. *)
Ltac start I H :=
  step_cases H; inv_fields I; simpl in *;
  try match goal with Hm : main _ = _ |- _ => rewrite Hm in * end;
  try match goal with Hm : mu _ = true |- _ => rewrite Hm in * end;
  try match goal with Hm : mu _ = false |- _ => rewrite Hm in * end;
  try match goal with Hm : closed _ = true |- _ => rewrite Hm in * end;
  try match goal with Hm : closed _ = false |- _ => rewrite Hm in * end;
  try match goal with Hm : (_ =? _) = true |- _ => apply Z.eqb_eq in Hm end;
  simpl in *.

(** What the worker taking the step contributes to a sum. *)
Ltac at_least f Hnonneg :=
  match goal with
  | H : workers ?s !! _ = Some ?pc |- _ =>
      let Hge := fresh "Hge" in
      pose proof (wsum_ge_lookup f (workers s) _ pc Hnonneg H) as Hge;
      simpl in Hge
  end.

Ltac worker_ok :=
  match goal with
  | Hwok : Forall wpc_ok (workers ?s), H : workers ?s !! _ = Some _ |- _ =>
      let Hpc := fresh "Hpc" in
      pose proof (Forall_lookup_1 _ _ _ _ Hwok H) as Hpc; simpl in Hpc
  end.

Lemma busy_nonneg pc : 0 <= busy pc.
Proof. destruct pc; simpl; lia. Qed.

Lemma exited_nonneg pc : 0 <= exited pc.
Proof. destruct pc; simpl; lia. Qed.

Lemma holds_lock_nonneg pc : 0 <= holds_lock pc.
Proof. destruct pc as [| |[] | |]; simpl; lia. Qed.

Lemma storing_nonneg k pc : 0 <= storing k pc.
Proof. destruct pc as [| |[] | |]; simpl; try case_decide; lia. Qed.

Lemma storing_le_busy k pc : storing k pc <= busy pc.
Proof. destruct pc as [| |[] | |]; simpl; try case_decide; lia. Qed.

Lemma step_len s l s' :
  Inv s -> step ctx total l s = Some s' -> length (workers s') = parallelism.
Proof.
  intros I H. start I H; rewrite ?length_insert; done.
Qed.

Lemma step_wok s l s' :
  Inv s -> step ctx total l s = Some s' -> Forall wpc_ok (workers s').
Proof.
  intros I H. start I H; try done; try worker_ok;
    try (apply Forall_insert; [done|]; simpl; try done).
  by eapply lookup_weaken.
Qed.

Lemma step_rem s l s' :
  Inv s -> step ctx total l s = Some s' -> remaining s' ⊆ targets.
Proof.
  intros I H. start I H; try done; try apply map_empty_subseteq.
  etrans; [apply delete_subseteq|done].
Qed.

Lemma step_closed s l s' :
  Inv s -> step ctx total l s = Some s' ->
  closed s' = match main s' with MRange _ => false | _ => true end.
Proof.
  intros I H. start I H; done.
Qed.

Lemma step_exit s l s' :
  Inv s -> step ctx total l s = Some s' ->
  closed s' = false -> wsum exited (workers s') = 0.
Proof.
  intros I H. start I H; try done; wsums; simpl; intros Hc;
    try (specialize (Hexit Hc); lia); try congruence.
Qed.

Lemma step_mu s l s' :
  Inv s -> step ctx total l s = Some s' ->
  Z.b2z (mu s') = wsum holds_lock (workers s').
Proof.
  intros I H. start I H; try done; wsums; simpl; try lia.
  at_least holds_lock holds_lock_nonneg. destruct (mu s); simpl in *; lia.
Qed.

Lemma step_wg s l s' :
  Inv s -> step ctx total l s = Some s' ->
  wg s' = Z.of_nat (size (remaining s')) + wsum busy (workers s').
Proof.
  intros I H. start I H; try done; wsums; simpl; try lia.
  rewrite map_size_delete_Some by done.
  assert (size remaining <> 0%nat); [|lia].
  apply map_size_non_empty_iff. intros ->. by rewrite lookup_empty in *.
Qed.

Lemma quiet_not_busy s w pc :
  Inv s -> wg s = 0 -> workers s !! w = Some pc -> busy pc = 0.
Proof.
  intros I Hz Hw. inv_fields I.
  apply (wsum_zero_lookup busy (workers s) w pc busy_nonneg); [|done].
  pose proof (wsum_nonneg busy (workers s) busy_nonneg). lia.
Qed.

Lemma step_quiet s l s' :
  Inv s -> step ctx total l s = Some s' ->
  match main s' with MFill | MReturned => wg s' = 0 | _ => True end.
Proof.
  intros I H. pose proof (quiet_not_busy s) as Hnb. specialize (fun w pc => Hnb w pc I).
  start I H; try done.
  all: destruct (main s); try done.
  all: match goal with Hw : workers _ !! _ = Some _ |- _ =>
         specialize (Hnb _ _ Hquiet Hw); simpl in Hnb; lia end.
Qed.
Lemma record_of_probe t tk err :
  flexibleConnect ctx t = (tk, err) -> record_of t = newTargetResults t tk err.
Proof. intros H. unfold record_of. by rewrite H. Qed.

Lemma step_sound s l s' :
  Inv s -> step ctx total l s = Some s' ->
  forall k r, targetresults s' !! k = Some r ->
    exists t, targets !! k = Some t /\ r = record_of t.
Proof.
  intros I H. start I H; try done.
  worker_ok. destruct Hpc as [Hk Hp]. intros k r.
  destruct (decide (key kt = k)) as [<-|Hne].
  - rewrite lookup_insert_eq. intros [= <-]. exists (target kt).
    split; [done|]. by rewrite (record_of_probe _ _ _ Hp).
  - rewrite lookup_insert_ne by done. apply Hsound.
Qed.

Lemma step_cover s l s' :
  Inv s -> step ctx total l s = Some s' ->
  forall k t, targets !! k = Some t ->
    1 <= ind (remaining s' !! k) + wsum (storing k) (workers s')
         + ind (targetresults s' !! k).
Proof.
  intros I H. start I H; try done; intros k' t' Hk'; specialize (Hcover k' t' Hk');
    wsums; simpl; try lia.
  - pose proof (wsum_nonneg (storing k') (workers s) (storing_nonneg k')).
    destruct (decide (k = k')) as [->|Hne].
    + rewrite lookup_delete_eq. simpl.
      destruct (targetresults s !! k'); simpl; lia.
    + rewrite lookup_delete_ne by done. lia.
  - at_least (storing k') (storing_nonneg k').
    destruct (decide (key kt = k')) as [<-|Hne].
    + rewrite lookup_insert_eq. simpl.
      destruct (remaining s !! key kt); simpl; lia.
    + rewrite lookup_insert_ne by done. lia.
Qed.

Lemma step_sent s l s' :
  Inv s -> step ctx total l s = Some s' ->
  sentBytes s' = wrap64 (msum sent_of targets - msum sent_of (remaining s')
                         - wsum owed_sent (workers s')).
Proof.
  intros I H. start I H; try done; wsums; simpl;
    rewrite ?Hsent, ?wrap64_add_l; f_equal; try lia.
  - rewrite (msum_delete _ _ _ _ Heqo0). lia.
  - unfold sent_of. rewrite Heqp. simpl. lia.
Qed.

Lemma step_received s l s' :
  Inv s -> step ctx total l s = Some s' ->
  receivedBytes s' = wrap64 (msum received_of targets
                             - msum received_of (remaining s')
                             - wsum owed_received (workers s')).
Proof.
  intros I H. start I H; try done; wsums; simpl;
    rewrite ?Hrecv, ?wrap64_add_l; f_equal; try lia.
  - rewrite (msum_delete _ _ _ _ Heqo0). lia.
  - unfold received_of. rewrite Heqp. simpl. lia.
Qed.

Lemma step_connects s l s' :
  Inv s -> step ctx total l s = Some s' ->
  Forall (fun ct => ct.1 = ctx) (connects s').
Proof.
  intros I H. start I H; try done.
  apply Forall_app. split; [done|]. by constructor.
Qed.

Lemma step_output s l s' :
  Inv s -> step ctx total l s = Some s' ->
  main s' = MReturned ->
  testkeys s' = Some (targetresults s') /\
  datausage s' = Some (kibi (receivedBytes s'), kibi (sentBytes s')).
Proof.
  intros I H. pose proof (quiet_not_busy s) as Hnb. specialize (fun w pc => Hnb w pc I).
  start I H; try done; intros Hm; try discriminate Hm; rewrite Hm in *.
  all: match goal with Hw : workers _ !! _ = Some _ |- _ =>
         specialize (Hnb _ _ Hquiet Hw); simpl in Hnb; lia end.
Qed.

Ltac wsame :=
  repeat match goal with
  | H : workers _ !! _ = Some ?pc |- context [wlist ?g (<[_:=?pc']> _)] =>
      rewrite (wlist_insert_same g _ _ pc pc' H) by reflexivity
  end.

Ltac wperm g :=
  match goal with
  | H : workers ?s !! _ = Some ?pc |- context [wlist g (<[_:=?pc']> _)] =>
      let Hp := fresh "Hp" in
      pose proof (wlist_insert g (workers s) _ pc pc' H) as Hp; simpl in Hp
  end.

Lemma step_increments s l s' :
  Inv s -> step ctx total l s = Some s' ->
  completed s' = wrap64 (Z.of_nat (increments s')) /\
  (progress s').*1 ++ wlist drawn (workers s')
    ≡ₚ fraction <$> seq 1 (increments s').
Proof.
  intros I H. start I H; unfold increments in *; simpl; wsame; try done.
  - (* the increment of rc.completed *)
    wperm drawn. rewrite Hp. rewrite length_cons, Nat.add_succ_r.
    assert (Hsofar : wrap64 (completed s + 1) =
              wrap64 (Z.of_nat (S (length (progress s)
                                   + length (wlist drawn (workers s)))))).
    { rewrite Hcompleted, wrap64_add_l. f_equal. lia. }
    split; [done|].
    rewrite seq_S, fmap_app, <- Hfrac. simpl. unfold fraction.
    rewrite <- Hsofar. solve_Permutation.
  - (* the call of the progress callback *)
    wperm drawn. rewrite !length_app, !fmap_app. simpl.
    assert (Hl : length (wlist drawn (workers s)) =
                 S (length (wlist drawn (<[w:=WRun PDone kt tk err]> (workers s)))))
      by (by rewrite <- Hp).
    replace (length (progress s) + 1 +
             length (wlist drawn (<[w:=WRun PDone kt tk err]> (workers s))))%nat
      with (length (progress s) + length (wlist drawn (workers s)))%nat by lia.
    split; [done|]. rewrite <- Hfrac, <- Hp. solve_Permutation.
Qed.

Lemma step_messages s l s' :
  Inv s -> step ctx total l s = Some s' ->
  (progress s').*2 ++ wlist owed_message (workers s')
    ++ mlist message_of (remaining s')
    ≡ₚ mlist message_of targets.
Proof.
  intros I H. start I H; wsame; try done.
  - (* a send *)
    wperm owed_message.
    rewrite Hp, <- Hmsgs, <- (mlist_delete message_of _ _ _ Heqo0).
    solve_Permutation.
  - (* the probe returns *)
    rewrite (wlist_insert_same owed_message _ _ _ _ Heqo); [done|].
    simpl. unfold message_of. by rewrite Heqp.
  - (* the call of the progress callback *)
    wperm owed_message. rewrite fmap_app. simpl.
    rewrite <- Hmsgs, <- Hp. solve_Permutation.
Qed.

(** The invariant is preserved by every step, hence holds in every state
    a schedule reaches. *)
Lemma step_Inv s l s' :
  Inv s -> step ctx total l s = Some s' -> Inv s'.
Proof.
  intros I H. split.
  - by eapply step_len.
  - by eapply step_wok.
  - by eapply step_rem.
  - by eapply step_closed.
  - by eapply step_exit.
  - by eapply step_mu.
  - by eapply step_wg.
  - by eapply step_quiet.
  - by eapply step_sound.
  - by eapply step_cover.
  - by eapply step_sent.
  - by eapply step_received.
  - by eapply step_increments.
  - by eapply step_increments.
  - by eapply step_messages.
  - by eapply step_connects.
  - by eapply step_output.
Qed.

Lemma steps_Inv sched : forall s s',
  Inv s -> steps ctx total sched s = Some s' -> Inv s'.
Proof.
  induction sched as [|l sched IH]; intros s s' I H; simpl in H.
  - by simplify_eq.
  - destruct (step ctx total l s) as [s1|] eqn:Hs; [|done].
    eapply IH; [|done]. by eapply step_Inv.
Qed.

Lemma measureTargets_Inv sched s :
  measureTargets ctx targets sched = Some s -> Inv s.
Proof. intros H. eapply steps_Inv; [apply init_Inv|exact H]. Qed.


(** ** No deadlock *)

Definition receiving (pc : WorkerPC) : Z :=
  match pc with WRecv => 1 | _ => 0 end.

Lemma receiving_nonneg pc : 0 <= receiving pc.
Proof. destruct pc; simpl; lia. Qed.

(** A worker inside the loop body can move, or the holder of the mutex
    can. *)
Lemma busy_step s w pc :
  Inv s -> workers s !! w = Some pc -> busy pc = 1 ->
  exists w' s', worker_step ctx total w' s = Some s'.
Proof.
  intros I Hw Hb.
  assert (Hgo : forall w0 pc0, workers s !! w0 = Some pc0 -> busy pc0 = 1 ->
                  (forall kt tk err, pc0 <> WRun PLock kt tk err) ->
                  exists w' s', worker_step ctx total w' s = Some s').
  { intros w0 pc0 Hw0 Hb0 Hnl. exists w0. unfold worker_step. rewrite Hw0.
    destruct pc0 as [|kt|ph kt tk err|kt tk err sofar|]; try discriminate Hb0;
      simpl.
    - destruct (flexibleConnect ctx (target kt)). eauto.
    - destruct ph; simpl; eauto. by destruct (Hnl kt tk err).
    - eauto. }
  assert (Hd : (exists kt tk err, pc = WRun PLock kt tk err) \/
               (forall kt tk err, pc <> WRun PLock kt tk err)).
  { destruct pc as [| |[] kt tk err| |];
      try (right; intros; discriminate); left; eauto. }
  destruct Hd as [(kt & tk & err & ->)|Hnl].
  - destruct (mu s) eqn:Hlocked.
    + inv_fields I. rewrite Hlocked in *. simpl in *.
      destruct (wsum_pos_lookup holds_lock (workers s) holds_lock_nonneg)
        as (w' & pc' & Hw' & Hpos); [lia|].
      apply (Hgo w' pc' Hw').
      * destruct pc' as [| |[] | |]; simpl in *; try lia.
      * intros kt' tk' err' ->. simpl in Hpos. lia.
    + exists w. unfold worker_step. rewrite Hw. simpl. rewrite Hlocked. eauto.
  - by apply (Hgo w pc Hw Hb).
Qed.

Lemma progress_step s :
  Inv s -> main s <> MReturned -> exists l s', step ctx total l s = Some s'.
Proof.
  intros I Hm. pose proof (busy_step s) as Hbusy.
  specialize (fun w pc => Hbusy w pc I).
  assert (Hwork : forall w pc, workers s !! w = Some pc -> busy pc = 1 ->
                    exists l s', step ctx total l s = Some s').
  { intros w pc Hw Hb. destruct (Hbusy w pc Hw Hb) as (w' & s' & Hs).
    exists (LWorker w'), s'. done. }
  inv_fields I. destruct (main s) as [r| | |] eqn:Hmain; simpl in *; [| | |done].
  - destruct (decide (r = ∅)) as [->|Hne].
    + exists LMain. unfold step, main_step. rewrite Hmain.
      rewrite decide_True by done. eauto.
    + destruct (map_choose r Hne) as (k & t & Hk).
      pose proof (wsum_nonneg receiving (workers s) receiving_nonneg) as Hr.
      destruct (decide (0 < wsum receiving (workers s))) as [Hpos|Hz].
      * destruct (wsum_pos_lookup receiving (workers s) receiving_nonneg Hpos)
          as (w & pc & Hw & Hrecv').
        destruct pc; simpl in Hrecv'; try lia.
        exists (LSend k w). unfold step, send_step. rewrite Hmain, Hw, Hk. eauto.
      * destruct (workers s) as [|pc0 ws] eqn:Hws; [done|].
        apply (Hwork 0%nat pc0); [done|].
        pose proof (wsum_zero_lookup receiving (pc0 :: ws) 0%nat pc0
                      receiving_nonneg ltac:(lia) eq_refl) as H1.
        pose proof (wsum_zero_lookup exited (pc0 :: ws) 0%nat pc0
                      exited_nonneg (Hexit Hclosed) eq_refl) as H2.
        destruct pc0; simpl in *; done.
  - destruct (decide (wg s = 0)) as [Hz|Hnz].
    + exists LMain. unfold step, main_step. rewrite Hmain.
      apply Z.eqb_eq in Hz. rewrite Hz. eauto.
    + pose proof (wsum_nonneg busy (workers s) busy_nonneg) as Hb.
      rewrite map_size_empty in Hwg.
      destruct (wsum_pos_lookup busy (workers s) busy_nonneg)
        as (w & pc & Hw & Hpos); [lia|].
      apply (Hwork w pc Hw). destruct pc; simpl in *; lia.
  - exists LMain. unfold step, main_step. rewrite Hmain. eauto.
Qed.

(** ** Termination: every step uses up one unit of the work left *)

Definition main_weight (m : MainPC) : Z :=
  match m with
  | MRange r => 10 * Z.of_nat (size r) + 3
  | MWait => 2
  | MFill => 1
  | MReturned => 0
  end.

Definition weight (pc : WorkerPC) : Z :=
  match pc with
  | WExit => 0
  | WRecv => 1
  | WRun PDone _ _ _ => 2
  | WProgress _ _ _ _ => 3
  | WRun PAddCompleted _ _ _ => 4
  | WRun PAddReceived _ _ _ => 5
  | WRun PAddSent _ _ _ => 6
  | WRun PUnlock _ _ _ => 7
  | WRun PStore _ _ _ => 8
  | WRun PLock _ _ _ => 9
  | WConnect _ => 10
  end.

Definition work_left (s : State) : Z :=
  main_weight (main s) + wsum weight (workers s).

Lemma weight_nonneg pc : 0 <= weight pc.
Proof. destruct pc as [| |[] | |]; simpl; lia. Qed.

Lemma work_left_nonneg s : 0 <= work_left s.
Proof.
  unfold work_left. pose proof (wsum_nonneg weight (workers s) weight_nonneg).
  destruct (main s); simpl; lia.
Qed.

Lemma step_work_left s l s' :
  step ctx total l s = Some s' -> work_left s' = work_left s - 1.
Proof.
  intros H. unfold work_left. step_cases H; simpl;
    try match goal with Hm : main _ = _ |- _ => rewrite Hm end;
    wsums; simpl; try lia.
  - rewrite map_size_delete_Some by done.
    assert (size remaining <> 0%nat); [|lia].
    apply map_size_non_empty_iff. intros ->. by rewrite lookup_empty in *.
  - rewrite map_size_empty. lia.
Qed.

Lemma steps_work_left sched : forall s s',
  steps ctx total sched s = Some s' ->
  work_left s' = work_left s - Z.of_nat (length sched).
Proof.
  induction sched as [|l sched IH]; intros s s' H; simpl in H.
  - simplify_eq. simpl. lia.
  - destruct (step ctx total l s) as [s1|] eqn:Hs; [|done].
    rewrite (IH _ _ H), (step_work_left _ _ _ Hs). simpl length. lia.
Qed.

Lemma schedule_bound sched s :
  measureTargets ctx targets sched = Some s ->
  Z.of_nat (length sched) <= 10 * total + 5.
Proof.
  intros H. pose proof (steps_work_left _ _ _ H) as Hw.
  pose proof (work_left_nonneg s).
  change (work_left (init targets)) with (10 * total + 3 + 2) in Hw. lia.
Qed.

(** From every state of a fan-out some schedule leads to the return. *)
Lemma returns_from s :
  Inv s -> exists sched s', steps ctx total sched s = Some s' /\ main s' = MReturned.
Proof.
  remember (Z.to_nat (work_left s)) as n eqn:Hn. revert s Hn.
  induction n as [n IH] using lt_wf_ind. intros s Hn I.
  assert (Hd : main s = MReturned \/ main s <> MReturned)
    by (destruct (main s); auto).
  destruct Hd as [Hr|Hr].
  - exists [], s. done.
  - destruct (progress_step s I Hr) as (l & s1 & Hs).
    pose proof (step_work_left _ _ _ Hs) as Hw.
    pose proof (work_left_nonneg s1).
    destruct (IH (Z.to_nat (work_left s1)) ltac:(lia) s1 eq_refl
                (step_Inv _ _ _ I Hs)) as (sched & s' & Hrun & Hret).
    exists (l :: sched), s'. simpl. rewrite Hs. done.
Qed.

(** ** What holds once the wait group has drained *)

Lemma idle_wsum f (ws : list WorkerPC) :
  (forall pc, busy pc = 0 -> f pc = 0) -> wsum busy ws = 0 -> wsum f ws = 0.
Proof.
  intros Hf. unfold wsum. induction ws as [|pc ws IH]; [done|].
  rewrite !fmap_cons, !Zsum_cons. intros H.
  pose proof (busy_nonneg pc). pose proof (wsum_nonneg busy ws busy_nonneg).
  unfold wsum in *. rewrite Hf, IH by lia. done.
Qed.

Lemma idle_wlist {A} (g : WorkerPC -> list A) (ws : list WorkerPC) :
  (forall pc, busy pc = 0 -> g pc = []) -> wsum busy ws = 0 -> wlist g ws = [].
Proof.
  intros Hg. unfold wsum, wlist. induction ws as [|pc ws IH]; [done|].
  rewrite !fmap_cons, !Zsum_cons, bind_cons. intros H.
  pose proof (busy_nonneg pc). pose proof (wsum_nonneg busy ws busy_nonneg).
  unfold wsum in *. rewrite Hg, IH by lia. done.
Qed.

Lemma drained_idle s :
  Inv s -> wg s = 0 -> remaining s = ∅ /\ wsum busy (workers s) = 0.
Proof.
  intros I Hz. inv_fields I.
  pose proof (wsum_nonneg busy (workers s) busy_nonneg).
  split; [|lia]. apply map_size_empty_iff. lia.
Qed.

Lemma drained_results s :
  Inv s -> wg s = 0 -> targetresults s = expected_results.
Proof.
  intros I Hz. destruct (drained_idle s I Hz) as [Hrem0 Hidle]. inv_fields I.
  apply map_eq. intros k. unfold expected_results. rewrite lookup_fmap.
  destruct (targets !! k) as [t|] eqn:Hk; simpl.
  - specialize (Hcover k t Hk). rewrite Hrem0, lookup_empty in Hcover.
    simpl in Hcover.
    assert (wsum (storing k) (workers s) = 0) as Hst.
    { apply idle_wsum; [|done]. intros pc Hb.
      pose proof (storing_le_busy k pc). pose proof (storing_nonneg k pc). lia. }
    destruct (targetresults s !! k) as [r|] eqn:Hr; [|simpl in Hcover; lia].
    destruct (Hsound k r Hr) as (t' & Hk' & ->). congruence.
  - destruct (targetresults s !! k) as [r|] eqn:Hr; [|done].
    destruct (Hsound k r Hr) as (t' & Hk' & _). congruence.
Qed.

Lemma drained_bytes s :
  Inv s -> wg s = 0 ->
  sentBytes s = wrap64 (msum sent_of targets) /\
  receivedBytes s = wrap64 (msum received_of targets).
Proof.
  intros I Hz. destruct (drained_idle s I Hz) as [Hrem0 Hidle]. inv_fields I.
  rewrite Hsent, Hrecv, Hrem0, !msum_empty.
  rewrite (idle_wsum owed_sent), (idle_wsum owed_received); try done.
  - by rewrite !Z.sub_0_r.
  - intros pc Hb. destruct pc as [| |[] | |]; simpl in *; done.
  - intros pc Hb. destruct pc as [| |[] | |]; simpl in *; done.
Qed.

Lemma drained_progress s :
  Inv s -> wg s = 0 ->
  length (progress s) = size targets /\
  completed s = wrap64 total /\
  (progress s).*1 ≡ₚ fraction <$> seq 1 (size targets) /\
  (progress s).*2 ≡ₚ mlist message_of targets.
Proof.
  intros I Hz. destruct (drained_idle s I Hz) as [Hrem0 Hidle]. inv_fields I.
  unfold increments in *.
  rewrite (idle_wlist drawn) in * by (try done; intros [| |[] | |]; done).
  rewrite (idle_wlist owed_message) in Hmsgs
    by (try done; intros [| |[] | |]; done).
  rewrite Hrem0, mlist_empty in Hmsgs. simpl in *.
  rewrite !app_nil_r, ?Nat.add_0_r in *.
  assert (Hn : length (progress s) = size targets).
  { rewrite <- (length_fmap snd), Hmsgs. unfold mlist.
    by rewrite length_fmap, length_map_to_list. }
  rewrite Hn in *. done.
Qed.

(** ** int64 sums and fractions *)

(** The sum of a list of int64 values as a Go loop computes it. *)
Definition int64_sum (l : list Z) : Z := foldr (fun x acc => wrap64 (x + acc)) 0 l.

Lemma wrap64_add_r a b : wrap64 (a + wrap64 b) = wrap64 (a + b).
Proof. rewrite Z.add_comm, wrap64_add_l. f_equal. lia. Qed.

Lemma int64_sum_wrap l : int64_sum l = wrap64 (Zsum l).
Proof.
  induction l as [|x l IH]; [done|].
  simpl. rewrite IH, wrap64_add_r. done.
Qed.

Lemma percentage_spec k n : 0 < n -> (percentage k n == Qmake k (Z.to_pos n))%Q.
Proof.
  intros Hn. unfold percentage.
  destruct (n >? 0) eqn:E; [apply Qred_correct|lia].
Qed.

Lemma percentage_full n : 0 < n -> percentage n n = 1%Q.
Proof.
  intros Hn. unfold percentage. destruct (n >? 0) eqn:E; [|lia].
  change 1%Q with (Qred 1). apply Qred_complete.
  unfold Qeq. simpl. rewrite Z2Pos.id by done. lia.
Qed.

Lemma percentage_le_one k n : 0 < n -> k <= n -> (percentage k n <= 1)%Q.
Proof.
  intros Hn Hk. rewrite (percentage_spec k n Hn).
  unfold Qle. simpl. rewrite Z2Pos.id by done. lia.
Qed.

Lemma fraction_exact k :
  total <= max_int64 -> (k <= size targets)%nat ->
  fraction k = percentage (Z.of_nat k) total.
Proof.
  intros Hmax Hk. unfold fraction. rewrite wrap64_in_range; [done|].
  unfold in_int64, min_int64, max_int64 in *. lia.
Qed.

(** C1. measureTargets always returns, after at most 10 N + 5 steps of
    its goroutines whatever their interleaving and without deadlock; when
    it returns, the measurement holds the collector's map, whose keys are
    exactly the keys of the input, and every key maps to the record built
    from the probe of its target, with the failure field holding the
    probe's error when it failed and nil when it did not. *)
Theorem measureTargets_keeps_every_target :
  (exists sched s, measureTargets ctx targets sched = Some s /\ main s = MReturned) /\
  (forall sched s, measureTargets ctx targets sched = Some s ->
     Z.of_nat (length sched) <= 10 * total + 5 /\
     (main s <> MReturned -> exists l s', step ctx total l s = Some s') /\
     (main s = MReturned ->
        testkeys s = Some (targetresults s) /\
        targetresults s = expected_results /\
        dom (targetresults s) = dom targets /\
        size (targetresults s) = size targets /\
        forall k t, targets !! k = Some t ->
          exists r, targetresults s !! k = Some r /\
            TargetAddress r = Address t /\ TargetProtocol r = Protocol t /\
            Failure r = (flexibleConnect ctx t).2)).
Proof.
  split.
  - destruct (returns_from (init targets) init_Inv) as (sched & s & H & Hr).
    exists sched, s. done.
  - intros sched s H. pose proof (measureTargets_Inv sched s H) as I.
    split; [|split].
    + by apply (schedule_bound sched s).
    + by apply progress_step.
    + intros Hr. pose proof (inv_quiet s I) as Hq. rewrite Hr in Hq.
      pose proof (drained_results s I Hq) as Hres.
      split; [by apply (inv_output s I)|]. split; [done|].
      rewrite Hres. unfold expected_results.
      split; [by rewrite dom_fmap_L|]. split; [by rewrite map_size_fmap|].
      intros k t Hk. exists (record_of t). rewrite lookup_fmap, Hk.
      repeat split. simpl. by destruct ((flexibleConnect ctx t).2).
Qed.

(** C2. Once the wait group has let measureTargets through, rc.sentBytes
    and rc.receivedBytes are the int64 sums of the SentBytes and
    ReceivedBytes of the probe results of all targets, whatever the
    interleaving of the workers was; they are the exact integer sums
    whenever these fit in an int64; and these are the totals reported to
    OnDataUsage. *)
Theorem byte_totals_exact :
  (exists sched s, measureTargets ctx targets sched = Some s /\ main s = MReturned) /\
  (forall sched s, measureTargets ctx targets sched = Some s ->
    main s = MFill \/ main s = MReturned ->
    sentBytes s = int64_sum (mlist sent_of targets) /\
    receivedBytes s = int64_sum (mlist received_of targets) /\
    (in_int64 (msum sent_of targets) -> sentBytes s = msum sent_of targets) /\
    (in_int64 (msum received_of targets) ->
       receivedBytes s = msum received_of targets) /\
    (main s = MReturned ->
       datausage s = Some (kibi (receivedBytes s), kibi (sentBytes s)))).
Proof.
  split.
  { destruct (returns_from (init targets) init_Inv) as (sched & s & H & Hr).
    exists sched, s. done. }
  intros sched s H Hm. pose proof (measureTargets_Inv sched s H) as I.
  assert (Hq : wg s = 0).
  { pose proof (inv_quiet s I) as Hq. by destruct Hm as [Hm|Hm]; rewrite Hm in Hq. }
  destruct (drained_bytes s I Hq) as [Hs Hr].
  rewrite !int64_sum_wrap. fold (msum sent_of targets) (msum received_of targets).
  split; [done|]. split; [done|]. split; [|split].
  - intros Hin. by rewrite Hs, wrap64_in_range.
  - intros Hin. by rewrite Hr, wrap64_in_range.
  - intros Hret. by apply (inv_output s I).
Qed.

Lemma fractions_exact n :
  total <= max_int64 -> (n <= size targets)%nat ->
  fraction <$> seq 1 n = (fun k => percentage (Z.of_nat k) total) <$> seq 1 n.
Proof.
  intros Hmax Hn. apply list_fmap_ext. intros i k Hk.
  apply lookup_seq in Hk as [-> Hi]. apply fraction_exact; [done|lia].
Qed.

Lemma wsum_le_length f (ws : list WorkerPC) :
  (forall pc, f pc <= 1) -> wsum f ws <= Z.of_nat (length ws).
Proof.
  intros Hf. unfold wsum. induction ws as [|pc ws IH]; [done|].
  rewrite fmap_cons, Zsum_cons, length_cons. specialize (Hf pc). lia.
Qed.

(** C8, as the code has it. A call of measureSingleTarget that drew the
    value [sofar] from rc.completed reports the fraction sofar / total
    with the message
    "tor: access <address>/<protocol>: <error or success>". Over a whole
    run with N > 0 targets there is one event per target, the fractions
    reported are 1/N, 2/N, ..., N/N, each once and in some order, N/N is
    1, none exceeds 1, and the messages are those of the targets. *)
Theorem progress_events_per_completion :
  0 < total -> total <= max_int64 ->
  (forall s w kt tk err sofar total',
     exists s', measureSingleTarget ctx total' w (WProgress kt tk err sofar) s = Some s' /\
       progress s' = progress s ++
         [(percentage sofar total',
           "tor: access " +:+ Address (target kt) +:+ "/" +:+ Protocol (target kt)
             +:+ ": " +:+ errString err)]) /\
  (forall sched s, measureTargets ctx targets sched = Some s ->
     main s = MFill \/ main s = MReturned ->
     length (progress s) = size targets /\
     (progress s).*1 ≡ₚ (fun k => percentage (Z.of_nat k) total) <$> seq 1 (size targets) /\
     (progress s).*2 ≡ₚ mlist (fun t => progress_message t (flexibleConnect ctx t).2) targets /\
     Forall (fun ev => (ev.1 <= 1)%Q) (progress s)) /\
  percentage total total = 1%Q /\
  (forall k, (percentage k total == Qmake k (Z.to_pos total))%Q) /\
  (exists sched s, measureTargets ctx targets sched = Some s /\ main s = MReturned).
Proof.
  intros Hpos Hmax. split; [|split; [|split; [|split]]].
  - intros s w kt tk err sofar total'. eexists. split; done.
  - intros sched s H Hm. pose proof (measureTargets_Inv sched s H) as I.
    assert (Hq : wg s = 0).
    { pose proof (inv_quiet s I) as Hq. by destruct Hm as [Hm|Hm]; rewrite Hm in Hq. }
    destruct (drained_progress s I Hq) as (Hlen & _ & Hfr & Hmsg).
    rewrite fractions_exact in Hfr by done.
    split; [done|]. split; [done|]. split; [done|].
    apply Forall_fmap with (f := fst) (P := fun q => (q <= 1)%Q).
    rewrite Hfr. apply Forall_fmap, Forall_forall. intros k Hk.
    apply elem_of_seq in Hk. simpl. apply percentage_le_one; lia.
  - by apply percentage_full.
  - intros k. by apply percentage_spec.
  - destruct (returns_from (init targets) init_Inv) as (sched & s & H & Hr).
    exists sched, s. done.
Qed.

(** C9, as the code has it. The channel has no buffer: a send of a
    remaining entry can happen exactly when some worker stands at its
    receive, so at most [parallelism] entries are ever handed over and
    not yet finished; the goroutines never deadlock and take at most
    10 N + 5 steps, so every entry is sent in the end; the wait lets
    measureTargets through exactly when no worker is inside the loop body;
    and past the wait every target has its record and its progress
    event. *)
Theorem send_needs_a_receiving_worker :
  forall sched s, measureTargets ctx targets sched = Some s ->
    (forall k t, remaining s !! k = Some t ->
       ((exists w s', send_step k w s = Some s') <->
        (exists w, workers s !! w = Some WRecv))) /\
    wsum busy (workers s) <= Z.of_nat parallelism /\
    Z.of_nat (length sched) <= 10 * total + 5 /\
    (main s <> MReturned -> exists l s', step ctx total l s = Some s') /\
    (main s = MWait ->
       (is_Some (main_step s) <-> wsum busy (workers s) = 0)) /\
    (main s = MFill \/ main s = MReturned ->
       targetresults s = expected_results /\
       length (progress s) = size targets).
Proof.
  intros sched s H. pose proof (measureTargets_Inv sched s H) as I.
  split; [|split; [|split; [|split; [|split]]]].
  - intros k t Hk. unfold send_step.
    destruct (main s) as [r| | |]; simpl in Hk; try by rewrite lookup_empty in Hk.
    rewrite Hk. split.
    + intros (w & s' & Hs). exists w.
      destruct (workers s !! w) as [[]|]; done.
    + intros (w & Hw). exists w. rewrite Hw. eauto.
  - rewrite <- (inv_len s I). apply wsum_le_length. intros []; simpl; lia.
  - by apply (schedule_bound sched s).
  - by apply progress_step.
  - intros Hm. pose proof (inv_wg s I) as Hwg. rewrite Hm in Hwg. simpl in Hwg.
    rewrite map_size_empty in Hwg. unfold main_step. rewrite Hm.
    destruct (wg s =? 0) eqn:E.
    + apply Z.eqb_eq in E. split; [lia|eauto].
    + apply Z.eqb_neq in E. split; [by intros [? ?]|lia].
  - intros Hm.
    assert (Hq : wg s = 0).
    { pose proof (inv_quiet s I) as Hq. by destruct Hm as [Hm|Hm]; rewrite Hm in Hq. }
    split; [by apply drained_results|by apply drained_progress].
Qed.

(** ** Further properties of the fan-out *)

Lemma wsum_cons f pc (ws : list WorkerPC) : wsum f (pc :: ws) = f pc + wsum f ws.
Proof. unfold wsum. by rewrite fmap_cons, Zsum_cons. Qed.

Lemma wsum_two_lookups f (ws : list WorkerPC) : forall i j a b,
  (forall pc, 0 <= f pc) -> i <> j ->
  ws !! i = Some a -> ws !! j = Some b -> f a + f b <= wsum f ws.
Proof.
  induction ws as [|pc ws IH]; intros i j a b Hf Hij Hi Hj; [done|].
  rewrite wsum_cons. pose proof (wsum_nonneg f ws Hf).
  destruct i as [|i], j as [|j]; simpl in *; simplify_eq.
  - pose proof (wsum_ge_lookup f ws j b Hf Hj). lia.
  - pose proof (wsum_ge_lookup f ws i a Hf Hi). lia.
  - specialize (IH i j a b Hf ltac:(congruence) Hi Hj). specialize (Hf pc). lia.
Qed.

(** A worker is between rc.mu.Lock() and rc.mu.Unlock(). *)
Definition in_critical_section (pc : WorkerPC) : Prop :=
  match pc with
  | WRun PStore _ _ _ | WRun PUnlock _ _ _ => True
  | _ => False
  end.

Lemma in_critical_section_holds pc : in_critical_section pc <-> holds_lock pc = 1.
Proof. destruct pc as [| |[] | |]; simpl; split; (done || lia). Qed.

(** The mutex does its job: in every state a fan-out can reach, at most
    one worker is between Lock and Unlock, so the writes to the result
    map never overlap; and rc.mu is held exactly when some worker is
    there. *)
Theorem mutex_excludes :
  forall sched s, measureTargets ctx targets sched = Some s ->
    (forall w1 w2 pc1 pc2,
       workers s !! w1 = Some pc1 -> workers s !! w2 = Some pc2 ->
       in_critical_section pc1 -> in_critical_section pc2 -> w1 = w2) /\
    (mu s = true <->
     exists w pc, workers s !! w = Some pc /\ in_critical_section pc).
Proof.
  intros sched s H. pose proof (measureTargets_Inv sched s H) as I.
  pose proof (inv_mu s I) as Hmu. split.
  - intros w1 w2 pc1 pc2 H1 H2 Hc1 Hc2.
    apply in_critical_section_holds in Hc1, Hc2.
    destruct (decide (w1 = w2)) as [|Hne]; [done|].
    pose proof (wsum_two_lookups holds_lock (workers s) w1 w2 pc1 pc2
                  holds_lock_nonneg Hne H1 H2).
    destruct (mu s); simpl in *; lia.
  - split.
    + intros Ht. rewrite Ht in Hmu. simpl in Hmu.
      destruct (wsum_pos_lookup holds_lock (workers s) holds_lock_nonneg)
        as (w & pc & Hw & Hpos); [lia|].
      exists w, pc. split; [done|]. apply in_critical_section_holds.
      destruct pc as [| |[] | |]; simpl in *; lia.
    + intros (w & pc & Hw & Hc). apply in_critical_section_holds in Hc.
      pose proof (wsum_ge_lookup holds_lock (workers s) w pc holds_lock_nonneg Hw).
      destruct (mu s); simpl in *; [done|lia].
Qed.

(** The probe a worker is about to make. *)
Definition owed_connect (pc : WorkerPC) : list TorTarget :=
  match pc with
  | WConnect kt => [target kt]
  | _ => []
  end.

(** The probes made, those about to be made and the entries not yet sent
    are together the targets, each once. *)
Definition probes_accounted (s : State) : Prop :=
  (connects s).*2 ++ wlist owed_connect (workers s)
    ++ mlist (fun t => t) (remaining s)
  ≡ₚ mlist (fun t => t) targets.

Lemma step_probes s l s' :
  Inv s -> probes_accounted s -> step ctx total l s = Some s' ->
  probes_accounted s'.
Proof.
  unfold probes_accounted. intros I Hacc H. start I H; wsame; try done.
  - wperm owed_connect.
    rewrite Hp, <- Hacc, <- (mlist_delete (fun t => t) _ _ _ Heqo0).
    solve_Permutation.
  - wperm owed_connect. rewrite fmap_app. simpl.
    rewrite <- Hacc, <- Hp. solve_Permutation.
Qed.

Lemma steps_probes sched : forall s s',
  Inv s -> probes_accounted s -> steps ctx total sched s = Some s' ->
  probes_accounted s'.
Proof.
  induction sched as [|l sched IH]; intros s s' I Hacc H; simpl in H.
  - by simplify_eq.
  - destruct (step ctx total l s) as [s1|] eqn:Hs; [|done].
    eapply IH; [by eapply step_Inv|by eapply step_probes|done].
Qed.

(** Every target is probed exactly once, with the context handed to
    measureTargets: at no time have more probes been started than there
    are targets, and once the wait is over the targets probed are the
    targets of the input, each once, whether its probe failed or not. *)
Theorem every_target_probed_once :
  forall sched s, measureTargets ctx targets sched = Some s ->
    (length (connects s) <= size targets)%nat /\
    Forall (fun ct => ct.1 = ctx) (connects s) /\
    (main s = MFill \/ main s = MReturned ->
       (connects s).*2 ≡ₚ (map_to_list targets).*2).
Proof.
  intros sched s H. pose proof (measureTargets_Inv sched s H) as I.
  assert (Hacc : probes_accounted s).
  { eapply steps_probes; [apply init_Inv| |exact H].
    unfold probes_accounted. done. }
  unfold probes_accounted in Hacc. split; [|split].
  - apply Permutation_length in Hacc.
    rewrite !length_app, length_fmap in Hacc.
    unfold mlist in Hacc at 2. rewrite length_fmap, length_map_to_list in Hacc.
    lia.
  - by apply (inv_connects s I).
  - intros Hm.
    assert (Hq : wg s = 0).
    { pose proof (inv_quiet s I) as Hq. by destruct Hm as [Hm|Hm]; rewrite Hm in Hq. }
    destruct (drained_idle s I Hq) as [Hrem0 Hidle].
    rewrite (idle_wlist owed_connect) in Hacc
      by (try done; intros [| |[] | |]; done).
    rewrite Hrem0, mlist_empty in Hacc. simpl in Hacc.
    rewrite app_nil_r in Hacc. exact Hacc.
Qed.

(** The wait group is used within its contract: its counter is never
    negative (Done is never called more often than Add announced), it
    counts the entries not yet sent plus the workers inside the loop
    body, and when it is zero every target has its record. *)
Theorem waitgroup_counter :
  forall sched s, measureTargets ctx targets sched = Some s ->
    0 <= wg s /\
    wg s = Z.of_nat (size (remaining s)) + wsum busy (workers s) /\
    (wg s = 0 -> targetresults s = expected_results).
Proof.
  intros sched s H. pose proof (measureTargets_Inv sched s H) as I.
  pose proof (inv_wg s I) as Hwg.
  pose proof (wsum_nonneg busy (workers s) busy_nonneg).
  split; [lia|]. split; [done|]. by apply drained_results.
Qed.

Lemma Inv_results_expected s : Inv s -> targetresults s ⊆ expected_results.
Proof.
  intros I. apply map_subseteq_spec. intros k r Hr.
  destruct (inv_sound s I k r Hr) as (t & Hk & ->).
  unfold expected_results. by rewrite lookup_fmap, Hk.
Qed.

Lemma step_results_grow s l s' :
  Inv s -> step ctx total l s = Some s' -> targetresults s ⊆ targetresults s'.
Proof.
  intros I H. pose proof (Inv_results_expected s I) as Hexp.
  start I H; try done.
  worker_ok. destruct Hpc as [Hk Hp].
  apply map_subseteq_spec. intros k r Hr.
  destruct (decide (key kt = k)) as [<-|Hne].
  - rewrite lookup_insert_eq. f_equal.
    destruct (Hsound _ _ Hr) as (t & Ht & ->).
    rewrite Hk in Ht. injection Ht as <-. by rewrite (record_of_probe _ _ _ Hp).
  - by rewrite lookup_insert_ne.
Qed.

Lemma steps_results_grow sched : forall s s',
  Inv s -> steps ctx total sched s = Some s' -> targetresults s ⊆ targetresults s'.
Proof.
  induction sched as [|l sched IH]; intros s s' I H; simpl in H.
  - by simplify_eq.
  - destruct (step ctx total l s) as [s1|] eqn:Hs; [|done].
    etrans; [by eapply step_results_grow|].
    eapply IH; [by eapply step_Inv|done].
Qed.

(** The result map only grows, and only towards the final result: in
    every state of a run the records stored so far are records of the
    final map, and a record once stored is never removed or changed by
    the rest of the run. *)
Theorem results_only_grow :
  forall sched1 sched2 s1 s2,
    measureTargets ctx targets sched1 = Some s1 ->
    steps ctx total sched2 s1 = Some s2 ->
    targetresults s1 ⊆ targetresults s2 /\
    targetresults s2 ⊆ expected_results.
Proof.
  intros sched1 sched2 s1 s2 H1 H2.
  pose proof (measureTargets_Inv sched1 s1 H1) as I1.
  split; [by eapply steps_results_grow|].
  apply Inv_results_expected. by eapply steps_Inv.
Qed.

(** The progress message that goes with a stored record. *)
Definition message_of_record (r : TargetResults) : string :=
  "tor: access " +:+ TargetAddress r +:+ "/" +:+ TargetProtocol r +:+ ": "
    +:+ default "success" (Failure r).

Lemma message_of_record_of t : message_of_record (record_of t) = message_of t.
Proof.
  unfold message_of_record, message_of, record_of, progress_message. simpl.
  by destruct ((flexibleConnect ctx t).2).
Qed.

(** What was reported and what was recorded agree: once the wait is
    over, the progress messages are, up to their order, exactly the
    messages of the records in the result map, each naming the record's
    address and protocol and ending in its failure, or in "success" when
    it has none. *)
Theorem progress_agrees_with_results :
  forall sched s, measureTargets ctx targets sched = Some s ->
    main s = MFill \/ main s = MReturned ->
    (progress s).*2 ≡ₚ message_of_record <$> (map_to_list (targetresults s)).*2.
Proof.
  intros sched s H Hm. pose proof (measureTargets_Inv sched s H) as I.
  assert (Hq : wg s = 0).
  { pose proof (inv_quiet s I) as Hq. by destruct Hm as [Hm|Hm]; rewrite Hm in Hq. }
  destruct (drained_progress s I Hq) as (_ & _ & _ & Hmsg).
  rewrite Hmsg, (drained_results s I Hq). unfold expected_results, mlist.
  rewrite map_to_list_fmap, <- !list_fmap_compose.
  erewrite list_fmap_ext; [reflexivity|]. intros i [k t] _. simpl.
  by rewrite message_of_record_of.
Qed.

Lemma drawn_le_owed (ws : list WorkerPC) :
  (length (wlist drawn ws) <= length (wlist owed_message ws))%nat.
Proof.
  unfold wlist. induction ws as [|pc ws IH]; [done|].
  rewrite !bind_cons, !length_app.
  assert (length (drawn pc) <= length (owed_message pc))%nat; [|lia].
  destruct pc as [| |[] | |]; simpl; lia.
Qed.

Lemma Inv_increments_bound s : Inv s -> (increments s <= size targets)%nat.
Proof.
  intros I. pose proof (inv_messages s I) as Hm.
  apply Permutation_length in Hm. unfold mlist in Hm at 2.
  rewrite !length_app, !length_fmap, length_map_to_list in Hm.
  pose proof (drawn_le_owed (workers s)). unfold increments. lia.
Qed.

(** At every moment of a run with N > 0 targets (N an int), rc.completed
    is between 0 and N and every fraction reported so far is greater than
    0 and at most 1. *)
Theorem progress_fractions_in_range :
  0 < total -> total <= max_int64 ->
  forall sched s, measureTargets ctx targets sched = Some s ->
    0 <= completed s <= total /\
    Forall (fun ev => (0 < ev.1 /\ ev.1 <= 1)%Q) (progress s).
Proof.
  intros Hpos Hmax sched s H. pose proof (measureTargets_Inv sched s H) as I.
  pose proof (Inv_increments_bound s I) as Hb.
  split.
  - rewrite (inv_completed s I), wrap64_in_range;
      unfold in_int64, min_int64, max_int64 in *; lia.
  - pose proof (inv_fractions s I) as Hf.
    rewrite fractions_exact in Hf by done.
    apply Forall_fmap with (f := fst) (P := fun q => (0 < q /\ q <= 1)%Q).
    assert (Hall : Forall (fun q => (0 < q /\ q <= 1)%Q)
                     ((progress s).*1 ++ wlist drawn (workers s))).
    { rewrite Hf. apply Forall_fmap, Forall_forall. intros k Hk.
      apply elem_of_seq in Hk. simpl. split.
      - rewrite (percentage_spec _ _ Hpos). unfold Qlt. simpl. lia.
      - apply percentage_le_one; lia. }
    by apply Forall_app in Hall as [Hall _].
Qed.

(** ** The end of a run *)

(** measureTargets has returned and every worker has left its loop. *)
Definition finished (s : State) : Prop :=
  main s = MReturned /\ Forall (fun pc => pc = WExit) (workers s).

Lemma progress_or_finished s :
  Inv s -> finished s \/ exists l s', step ctx total l s = Some s'.
Proof.
  intros I.
  assert (Hd : main s = MReturned \/ main s <> MReturned)
    by (destruct (main s); auto).
  destruct Hd as [Hr|Hr]; [|right; by apply progress_step].
  pose proof (inv_quiet s I) as Hq. rewrite Hr in Hq.
  pose proof (inv_closed s I) as Hc. rewrite Hr in Hc.
  pose proof (wsum_nonneg receiving (workers s) receiving_nonneg).
  destruct (decide (0 < wsum receiving (workers s))) as [Hpos|Hz].
  - right.
    destruct (wsum_pos_lookup receiving (workers s) receiving_nonneg Hpos)
      as (w & pc & Hw & Hrecv').
    destruct pc; simpl in Hrecv'; try lia.
    exists (LWorker w). simpl. unfold worker_step. rewrite Hw, Hc. eauto.
  - left. split; [done|]. apply Forall_lookup. intros w pc Hw.
    pose proof (quiet_not_busy s w pc I Hq Hw) as Hb.
    pose proof (wsum_zero_lookup receiving (workers s) w pc
                  receiving_nonneg ltac:(lia) Hw) as Hrc.
    destruct pc; simpl in *; done.
Qed.

Lemma finished_stuck s l : finished s -> step ctx total l s = None.
Proof.
  intros [Hm Hw]. destruct l as [k w| |w]; simpl.
  - unfold send_step. by rewrite Hm.
  - unfold main_step. by rewrite Hm.
  - unfold worker_step. destruct (workers s !! w) as [pc|] eqn:E; [|done].
    by rewrite (proj1 (Forall_lookup _ _) Hw w pc E).
Qed.

Lemma finished_work_left s : finished s -> work_left s = 0.
Proof.
  intros [Hm Hw]. unfold work_left. rewrite Hm.
  assert (Hz : wsum weight (workers s) = 0).
  { induction Hw as [|pc ws -> _ IH]; [done|]. by rewrite wsum_cons, IH. }
  rewrite Hz. done.
Qed.

Lemma finishes_from s :
  Inv s -> exists sched s', steps ctx total sched s = Some s' /\ finished s'.
Proof.
  remember (Z.to_nat (work_left s)) as n eqn:Hn. revert s Hn.
  induction n as [n IH] using lt_wf_ind. intros s Hn I.
  destruct (progress_or_finished s I) as [Hf|(l & s1 & Hs)].
  - exists [], s. done.
  - pose proof (step_work_left _ _ _ Hs) as Hw.
    pose proof (work_left_nonneg s1).
    destruct (IH (Z.to_nat (work_left s1)) ltac:(lia) s1 eq_refl
                (step_Inv _ _ _ I Hs)) as (sched & s' & Hrun & Hfin).
    exists (l :: sched), s'. simpl. rewrite Hs. done.
Qed.

(** No goroutine is left behind: a run can only come to a halt with
    measureTargets returned and both workers out of their loops, which
    takes exactly 10 N + 5 steps whatever the interleaving; such a run
    exists; and in that state nothing can move any more. *)
Theorem workers_all_exit :
  (exists sched s, measureTargets ctx targets sched = Some s /\ finished s) /\
  (forall sched s, measureTargets ctx targets sched = Some s ->
     ((forall l, step ctx total l s = None) <-> finished s) /\
     (finished s <-> Z.of_nat (length sched) = 10 * total + 5)).
Proof.
  split; [apply finishes_from, init_Inv|].
  intros sched s H. pose proof (measureTargets_Inv sched s H) as I.
  pose proof (steps_work_left _ _ _ H) as Hw.
  change (work_left (init targets)) with (10 * total + 3 + 2) in Hw.
  split; split.
  - intros Hstuck. destruct (progress_or_finished s I) as [Hf|(l & s' & Hs)];
      [done|]. by rewrite Hstuck in Hs.
  - intros Hf l. by apply finished_stuck.
  - intros Hf. rewrite (finished_work_left s Hf) in Hw. lia.
  - intros Hlen. destruct (progress_or_finished s I) as [Hf|(l & s' & Hs)];
      [done|].
    pose proof (step_work_left _ _ _ Hs). pose proof (work_left_nonneg s'). lia.
Qed.

(** The outcome does not depend on the interleaving: any two runs that
    return give the same result map, the same byte totals and data usage,
    and the same progress messages and fractions up to their order. *)
Theorem outcome_independent_of_schedule :
  forall sched1 sched2 s1 s2,
    measureTargets ctx targets sched1 = Some s1 -> main s1 = MReturned ->
    measureTargets ctx targets sched2 = Some s2 -> main s2 = MReturned ->
    testkeys s1 = testkeys s2 /\
    sentBytes s1 = sentBytes s2 /\
    receivedBytes s1 = receivedBytes s2 /\
    datausage s1 = datausage s2 /\
    (progress s1).*1 ≡ₚ (progress s2).*1 /\
    (progress s1).*2 ≡ₚ (progress s2).*2.
Proof.
  intros sched1 sched2 s1 s2 H1 Hr1 H2 Hr2.
  pose proof (measureTargets_Inv sched1 s1 H1) as I1.
  pose proof (measureTargets_Inv sched2 s2 H2) as I2.
  pose proof (inv_quiet s1 I1) as Hq1. rewrite Hr1 in Hq1.
  pose proof (inv_quiet s2 I2) as Hq2. rewrite Hr2 in Hq2.
  destruct (inv_output s1 I1 Hr1) as [Ht1 Hd1].
  destruct (inv_output s2 I2 Hr2) as [Ht2 Hd2].
  destruct (drained_bytes s1 I1 Hq1) as [Hs1 Hv1].
  destruct (drained_bytes s2 I2 Hq2) as [Hs2 Hv2].
  destruct (drained_progress s1 I1 Hq1) as (_ & _ & Hf1 & Hm1).
  destruct (drained_progress s2 I2 Hq2) as (_ & _ & Hf2 & Hm2).
  rewrite Ht1, Ht2, Hd1, Hd2, Hs1, Hs2, Hv1, Hv2, Hf1, Hf2, Hm1, Hm2.
  by rewrite (drained_results s1 I1 Hq1), (drained_results s2 I2 Hq2).
Qed.

End Invariants.

(** ** measure and its contexts *)

Lemma descends_refl ctx : descends ctx ctx.
Proof. destruct ctx; simpl; auto. Qed.

(** C3, as the code has it. measure derives a context with a 60 second
    timeout from the caller's context and hands it to the target-list
    query only; the fan-out and every probe in it receive the caller's
    own context, so that the caller's deadline and cancellation reach the
    query and the probes alike, while the 60 second timeout bounds the
    query alone. *)
Theorem measure_timeout_bounds_query_only :
  forall origCtx now Query,
    let m := measure origCtx now Query in
    query_ctx m = WithTimeout origCtx now (60 * second) /\
    descends (query_ctx m) origCtx /\
    (exists d, Deadline (query_ctx m) = Some d /\ d <= now + 60 * second) /\
    (forall e, (Query (query_ctx m)).2 = Some e -> outcome m = QueryFailed e) /\
    (forall targets, Query (query_ctx m) = (targets, None) ->
       outcome m = FanOut origCtx targets /\
       forall sched s, measure_run origCtx now Query sched = Some s ->
         Forall (fun ct => ct.1 = origCtx) (connects s)).
Proof.
  intros origCtx now Query m.
  assert (Hq : query_ctx m = WithTimeout origCtx now (60 * second)).
  { subst m. unfold measure. by destruct (Query _). }
  split; [done|]. rewrite Hq. split; [|split; [|split]].
  - simpl. right. apply descends_refl.
  - simpl. destruct (Deadline origCtx) as [d'|]; eexists; split; try done; lia.
  - intros e He. subst m. unfold measure.
    destruct (Query _) as [tg err]. simpl in *. by subst.
  - intros targets HQ.
    assert (Ho : outcome m = FanOut origCtx targets).
    { subst m. unfold measure. by rewrite HQ. }
    split; [done|]. intros sched s Hrun. unfold measure_run in Hrun.
    fold m in Hrun. rewrite Ho in Hrun.
    by apply (inv_connects origCtx targets s (measureTargets_Inv _ _ _ _ Hrun)).
Qed.

(** C10. With a total of zero (or less) the fraction is 0 whatever the
    completion count, and that is what measureSingleTarget reports: no
    division takes place. *)
Theorem percentage_guarded_for_zero_total :
  forall sofar,
    percentage sofar 0 = 0%Q /\
    (forall total, total <= 0 -> percentage sofar total = 0%Q) /\
    (forall ctx s w kt tk err,
       exists s', measureSingleTarget ctx 0 w (WProgress kt tk err sofar) s = Some s' /\
         progress s' = progress s ++ [(0%Q, progress_message (target kt) err)]).
Proof.
  intros sofar. split; [done|]. split.
  - intros total Ht. unfold percentage. destruct (total >? 0) eqn:E; [lia|done].
  - intros ctx s w kt tk err. eexists. split; done.
Qed.

End Collector.

(** ** defaultFlexibleConnect *)

Section Dispatch.

Context {Results NetworkEventsList DNSQueriesList RequestList
         TCPConnectList TLSHandshakesList Handler Time : Type}.
Variable SentBytes : Results -> Z.
Variable ReceivedBytes : Results -> Z.
Variable NewNetworkEventsList : Results -> NetworkEventsList.
Variable NewDNSQueriesList : Results -> DNSQueriesList.
Variable NewRequestList : Results -> RequestList.
Variable NewTCPConnectList : Results -> TCPConnectList.
Variable NewTLSHandshakesList : Results -> TLSHandshakesList.

(** The configurations of oonitemplates, with the fields the tor
    experiment sets. *)
Record HTTPDoConfig := mkHTTPDoConfig {
  httpAccept : string;
  httpAcceptLanguage : string;
  httpBeginning : Time;
  httpMaxEventsBodySnapSize : Z;
  httpMaxResponseBodySnapSize : Z;
  httpHandler : Handler;
  httpMethod : string;
  httpURL : string;
  httpUserAgent : string
}.

Record TLSConnectConfig := mkTLSConnectConfig {
  tlsAddress : string;
  tlsBeginning : Time;
  tlsInsecureSkipVerify : bool;
  tlsHandler : Handler
}.

Record OBFS4ConnectConfig := mkOBFS4ConnectConfig {
  obfs4Address : string;
  obfs4Beginning : Time;
  obfs4Handler : Handler;
  obfs4Params : gmap string (list string);
  obfs4StateBaseDir : string
}.

Record TCPConnectConfig := mkTCPConnectConfig {
  tcpAddress : string;
  tcpBeginning : Time;
  tcpHandler : Handler
}.

(** The four templates, each returning its TestKeys and Error. *)
Variable HTTPDo : Context -> HTTPDoConfig -> Results * error.
Variable TLSConnect : Context -> TLSConnectConfig -> Results * error.
Variable OBFS4Connect : Context -> OBFS4ConnectConfig -> Results * error.
Variable TCPConnect : Context -> TCPConnectConfig -> Results * error.

(** What the collector holds and draws: rc.measurement's saved start
    time, netxlogger.NewHandler(rc.sess.Logger), rc.sess.TempDir, the three
    header values of httpheader, and url.URL{Host, Path, Scheme}.String(). *)
Variable MeasurementStartTimeSaved : Time.
Variable handler : Handler.
Variable TempDir : string.
Variable RandomAccept RandomAcceptLanguage RandomUserAgent : string.
Variable url_String : string -> string -> string -> string.

(** const snapshotsize = 1 << 10 *)
Definition snapshotsize : Z := Z.shiftl 1 10.

(** func (rc *resultsCollector) defaultFlexibleConnect(ctx, target) *)
Definition defaultFlexibleConnect (ctx : Context) (target : TorTarget)
    : Results * error :=
  if String.eqb (Protocol target) "dir_port" then
    HTTPDo ctx
      {| httpAccept := RandomAccept;
         httpAcceptLanguage := RandomAcceptLanguage;
         httpBeginning := MeasurementStartTimeSaved;
         httpMaxEventsBodySnapSize := snapshotsize;
         httpMaxResponseBodySnapSize := snapshotsize;
         httpHandler := handler;
         httpMethod := "GET";
         httpURL := url_String "http" (Address target)
                      "/tor/status-vote/current/consensus.z";
         httpUserAgent := RandomUserAgent |}
  else if String.eqb (Protocol target) "or_port" then
    TLSConnect ctx
      {| tlsAddress := Address target;
         tlsBeginning := MeasurementStartTimeSaved;
         tlsInsecureSkipVerify := true;
         tlsHandler := handler |}
  else if String.eqb (Protocol target) "obfs4" then
    OBFS4Connect ctx
      {| obfs4Address := Address target;
         obfs4Beginning := MeasurementStartTimeSaved;
         obfs4Handler := handler;
         obfs4Params := Params target;
         obfs4StateBaseDir := TempDir |}
  else
    TCPConnect ctx
      {| tcpAddress := Address target;
         tcpBeginning := MeasurementStartTimeSaved;
         tcpHandler := handler |}.

(** The probe of a target whose protocol is none of the three known
    ones. *)
Definition tcp_fallback (ctx : Context) (t : TorTarget) : Results * error :=
  TCPConnect ctx
    {| tcpAddress := Address t;
       tcpBeginning := MeasurementStartTimeSaved;
       tcpHandler := handler |}.

Lemma defaultFlexibleConnect_fallback ctx t :
  Protocol t <> "dir_port" -> Protocol t <> "or_port" -> Protocol t <> "obfs4" ->
  defaultFlexibleConnect ctx t = tcp_fallback ctx t.
Proof.
  intros H1 H2 H3. unfold defaultFlexibleConnect.
  apply String.eqb_neq in H1, H2, H3. by rewrite H1, H2, H3.
Qed.

(** A target with an unknown protocol tag is neither rejected nor
    skipped by a collector that probes with defaultFlexibleConnect: when
    measureTargets returns, its key holds the record of a bare TCP connect
    to its address, with the failure of that connect and the tag as
    given. *)
Theorem unknown_protocol_is_measured_by_tcp :
  forall ctx targets sched s k t,
    measureTargets SentBytes ReceivedBytes NewNetworkEventsList NewDNSQueriesList
      NewRequestList NewTCPConnectList NewTLSHandshakesList
      defaultFlexibleConnect ctx targets sched = Some s ->
    main s = MReturned ->
    targets !! k = Some t ->
    Protocol t <> "dir_port" -> Protocol t <> "or_port" -> Protocol t <> "obfs4" ->
    targetresults s !! k
      = Some (newTargetResults NewNetworkEventsList NewDNSQueriesList
                NewRequestList NewTCPConnectList NewTLSHandshakesList
                t (tcp_fallback ctx t).1 (tcp_fallback ctx t).2) /\
    testkeys s = Some (targetresults s).
Proof.
  intros ctx targets sched s k t H Hr Hk H1 H2 H3.
  pose proof (measureTargets_Inv _ _ _ _ _ _ _ _ _ _ _ _ H) as I.
  pose proof (inv_quiet _ _ _ _ _ _ _ _ _ _ _ I) as Hq. rewrite Hr in Hq.
  split; [|by apply (inv_output _ _ _ _ _ _ _ _ _ _ _ I)].
  rewrite (drained_results _ _ _ _ _ _ _ _ _ _ _ I Hq).
  unfold expected_results. rewrite lookup_fmap, Hk. simpl.
  unfold record_of. by rewrite (defaultFlexibleConnect_fallback ctx t H1 H2 H3).
Qed.

End Dispatch.

(** ** Runs on concrete targets *)

(** A probe that succeeds on or_port targets (10 bytes sent, 20 received)
    and times out on the others (3 bytes sent, 4 received). The telemetry
    lists are left empty. *)
Definition sample_connect (ctx : Context) (t : TorTarget) : (Z * Z) * error :=
  if String.eqb (Protocol t) "or_port"
  then ((10, 20), None)
  else ((3, 4), Some "generic_timeout_error").

Definition sample_run (ctx : Context) (targets : gmap string TorTarget)
    (sched : list Label) : option State :=
  measureTargets (Results := Z * Z) fst snd
    (fun _ => tt) (fun _ => tt) (fun _ => tt) (fun _ => tt) (fun _ => tt)
    sample_connect ctx targets sched.

Definition target_a : TorTarget := mkTorTarget "1.2.3.4:80" "dir_port" ∅.
Definition target_b : TorTarget := mkTorTarget "5.6.7.8:443" "or_port" ∅.
Definition target_c : TorTarget := mkTorTarget "9.9.9.9:9001" "obfs4" ∅.

Definition two_targets : gmap string TorTarget :=
  <["a" := target_a]> (<["b" := target_b]> ∅).
Definition three_targets : gmap string TorTarget :=
  <["c" := target_c]> two_targets.

Definition turns (n w : nat) : list Label := replicate n (LWorker w).

(** Worker 0 takes "a", worker 1 takes "b"; worker 0 runs up to and
    including its increment of rc.completed, then worker 1 runs through
    its own increment and its progress call, and only then does worker 0
    report. *)
Definition overtaking_schedule : list Label :=
  [LSend "a" 0%nat; LSend "b" 1%nat] ++ turns 7 0 ++ turns 8 1 ++ turns 2 0
    ++ turns 1 1 ++ [LMain; LMain; LMain].

Example overtaking_run :
  (fun s => (main s, progress s, sentBytes s, receivedBytes s))
    <$> sample_run Background two_targets overtaking_schedule
  = Some (MReturned,
          [(1%Q, "tor: access 5.6.7.8:443/or_port: success");
           (Qmake 1 2, "tor: access 1.2.3.4:80/dir_port: generic_timeout_error")],
          13, 24).
Proof. vm_compute. reflexivity. Qed.

Definition sample_measure_run (origCtx : Context) (now : Z)
    (Query : Context -> gmap string TorTarget * error)
    (sched : list Label) : option State :=
  measure_run (Results := Z * Z) fst snd
    (fun _ => tt) (fun _ => tt) (fun _ => tt) (fun _ => tt) (fun _ => tt)
    sample_connect origCtx now Query sched.

(** The target list as testlists.Query would return it. *)
Definition sample_query (ctx : Context) : gmap string TorTarget * error :=
  (two_targets, None).

(** C1 on the two sample targets under the overtaking schedule. *)
Lemma measureTargets_keeps_every_target_on_sample :
  main <$> sample_run Background two_targets overtaking_schedule = Some MReturned /\
  (fun s => dom (targetresults s))
    <$> sample_run Background two_targets overtaking_schedule
  = Some (dom two_targets).
Proof.
  assert (Hm : main <$> sample_run Background two_targets overtaking_schedule
               = Some MReturned) by (vm_compute; reflexivity).
  split; [exact Hm|].
  apply fmap_Some in Hm as (s & E & Hs). rewrite E. simpl. f_equal.
  destruct (measureTargets_keeps_every_target fst snd
              (fun _ => tt) (fun _ => tt) (fun _ => tt) (fun _ => tt) (fun _ => tt)
              sample_connect Background two_targets) as [_ H].
  destruct (H overtaking_schedule s E) as (_ & _ & Hret).
  by destruct (Hret (eq_sym Hs)) as (_ & _ & Hdom & _).
Defined.

(** C2 on the two sample targets: 3 + 10 bytes sent, 4 + 20 received. *)
Lemma byte_totals_exact_on_sample :
  main <$> sample_run Background two_targets overtaking_schedule = Some MReturned /\
  (fun s => (sentBytes s, receivedBytes s))
    <$> sample_run Background two_targets overtaking_schedule
  = Some (13, 24).
Proof.
  assert (Hm : main <$> sample_run Background two_targets overtaking_schedule
               = Some MReturned) by (vm_compute; reflexivity).
  split; [exact Hm|].
  apply fmap_Some in Hm as (s & E & Hs). rewrite E. simpl.
  destruct (proj2 (byte_totals_exact fst snd
              (fun _ => tt) (fun _ => tt) (fun _ => tt) (fun _ => tt) (fun _ => tt)
              sample_connect Background two_targets) overtaking_schedule s E
              (or_intror (eq_sym Hs))) as (_ & _ & Hsent & Hrecv & _).
  rewrite Hsent by (vm_compute; split; discriminate).
  rewrite Hrecv by (vm_compute; split; discriminate).
  vm_compute. reflexivity.
Defined.

(** C3, refuted as stated: called with the background context, measure
    gives the query a context that expires after 60 seconds, and gives the
    fan-out, and through it every probe, the background context, which
    has no deadline at all. *)
Lemma fanout_context_is_not_the_query_context :
  let m := measure Background 0 sample_query in
  outcome m = FanOut Background two_targets /\
  query_ctx m <> Background /\
  Deadline (query_ctx m) = Some 60000000000 /\
  Deadline Background = None /\
  connects <$> sample_measure_run Background 0 sample_query overtaking_schedule
  = Some [(Background, target_a); (Background, target_b)].
Proof.
  intros m. split; [reflexivity|]. split; [discriminate|].
  split; [reflexivity|]. split; [reflexivity|]. vm_compute. reflexivity.
Qed.

(** C3 as amended, on the same call. *)
Lemma measure_timeout_bounds_query_only_on_sample :
  sample_query (query_ctx (measure Background 0 sample_query)) = (two_targets, None) /\
  outcome (measure Background 0 sample_query) = FanOut Background two_targets.
Proof.
  assert (HQ : sample_query (query_ctx (measure Background 0 sample_query))
               = (two_targets, None)) by reflexivity.
  split; [exact HQ|].
  destruct (measure_timeout_bounds_query_only (Results := Z * Z) fst snd
              (fun _ => tt) (fun _ => tt) (fun _ => tt) (fun _ => tt) (fun _ => tt)
              sample_connect Background 0 sample_query) as (_ & _ & _ & _ & H).
  by destruct (H two_targets HQ) as [Ho _].
Defined.

(** C8, refuted as stated: under the overtaking schedule the run on the
    two sample targets returns with 1/2 as the last fraction reported,
    after 1 was reported; and the message starts with "tor: access ". *)
Lemma last_progress_fraction_is_a_half :
  (fun s => (main s, (progress s).*1, last (progress s)))
    <$> sample_run Background two_targets overtaking_schedule
  = Some (MReturned, [1%Q; Qmake 1 2],
          Some (Qmake 1 2, "tor: access 1.2.3.4:80/dir_port: generic_timeout_error")) /\
  ~ (Qmake 1 2 == 1)%Q /\
  "tor: access 1.2.3.4:80/dir_port: generic_timeout_error"
    <> Address target_a +:+ "/" +:+ Protocol target_a +:+ ": "
         +:+ errString (sample_connect Background target_a).2.
Proof.
  split; [vm_compute; reflexivity|]. split; [|done].
  unfold Qeq. simpl. lia.
Qed.

(** C8 as amended, on the same run. *)
Lemma progress_events_per_completion_on_sample :
  0 < Z.of_nat (size two_targets) /\
  Z.of_nat (size two_targets) <= max_int64 /\
  main <$> sample_run Background two_targets overtaking_schedule = Some MReturned /\
  (fun s => length (progress s))
    <$> sample_run Background two_targets overtaking_schedule = Some 2%nat.
Proof.
  assert (H0 : 0 < Z.of_nat (size two_targets)) by (vm_compute; reflexivity).
  assert (H1 : Z.of_nat (size two_targets) <= max_int64)
    by (vm_compute; discriminate).
  assert (Hm : main <$> sample_run Background two_targets overtaking_schedule
               = Some MReturned) by (vm_compute; reflexivity).
  split; [exact H0|]. split; [exact H1|]. split; [exact Hm|].
  apply fmap_Some in Hm as (s & E & Hs). rewrite E. simpl. f_equal.
  destruct (progress_events_per_completion fst snd
              (fun _ => tt) (fun _ => tt) (fun _ => tt) (fun _ => tt) (fun _ => tt)
              sample_connect Background two_targets H0 H1) as (_ & H & _).
  by destruct (H overtaking_schedule s E (or_intror (eq_sym Hs))) as (Hlen & _).
Defined.

(** C9, refuted as stated: with three targets, once both workers have
    taken one, the third send cannot happen and measureTargets cannot
    move at all until a worker has finished a whole measurement. *)
Lemma third_send_blocks :
  exists s,
    sample_run Background three_targets [LSend "a" 0%nat; LSend "b" 1%nat] = Some s /\
    pending (main s) !! "c" = Some target_c /\
    (forall k w, send_step k w s = None) /\
    main_step s = None.
Proof.
  eexists. split; [vm_compute; reflexivity|].
  split; [vm_compute; reflexivity|]. split; [|vm_compute; reflexivity].
  intros k [|[|w]]; reflexivity.
Qed.

(** C9 as amended, in the blocked state. *)
Lemma send_needs_a_receiving_worker_on_sample :
  exists s,
    sample_run Background three_targets [LSend "a" 0%nat; LSend "b" 1%nat] = Some s /\
    pending (main s) !! "c" = Some target_c /\
    ((exists w s', send_step "c" w s = Some s') <->
     (exists w, workers s !! w = Some WRecv)).
Proof.
  eexists. split; [vm_compute; reflexivity|].
  split; [vm_compute; reflexivity|].
  refine (proj1 (send_needs_a_receiving_worker fst snd
            (fun _ => tt) (fun _ => tt) (fun _ => tt) (fun _ => tt) (fun _ => tt)
            sample_connect Background three_targets
            [LSend "a" 0%nat; LSend "b" 1%nat] _ _) "c" target_c _);
    vm_compute; reflexivity.
Defined.

(** C10 on a worker about to report a completion out of none. *)
Lemma percentage_guarded_for_zero_total_on_sample :
  let s := init (Results := Z * Z) (NetworkEventsList := unit)
             (DNSQueriesList := unit) (RequestList := unit)
             (TCPConnectList := unit) (TLSHandshakesList := unit) ∅ in
  percentage 1 (Z.of_nat (size (∅ : gmap string TorTarget))) = 0%Q /\
  exists s', measureSingleTarget fst snd
               (fun _ => tt) (fun _ => tt) (fun _ => tt) (fun _ => tt) (fun _ => tt)
               sample_connect Background 0 0%nat
               (WProgress (mkKeytarget "a" target_a) (3, 4) None 1) s = Some s' /\
    progress s' = [(0%Q, "tor: access 1.2.3.4:80/dir_port: success")].
Proof.
  intros s.
  destruct (percentage_guarded_for_zero_total fst snd
              (fun _ => tt) (fun _ => tt) (fun _ => tt) (fun _ => tt) (fun _ => tt)
              sample_connect 1) as (_ & Hle & H).
  split.
  - apply Hle. vm_compute. discriminate.
  - exact (H Background s 0%nat (mkKeytarget "a" target_a) (3, 4) None).
Defined.

(** ** The further properties on samples *)

Abbreviation sample_theorem T :=
  (T (Z * Z)%type unit unit unit unit unit
     (fst : Z * Z -> Z) (snd : Z * Z -> Z)
     (fun _ : Z * Z => tt) (fun _ : Z * Z => tt) (fun _ : Z * Z => tt)
     (fun _ : Z * Z => tt) (fun _ : Z * Z => tt) sample_connect) (only parsing).

(** Worker 0 has taken "a", probed it, locked the mutex and stored the
    record; worker 1 has taken "b". *)
Definition storing_schedule : list Label :=
  [LSend "a" 0%nat; LSend "b" 1%nat] ++ turns 3 0.

(** Each worker runs its measurement to the end before the other moves. *)
Definition in_turn_schedule : list Label :=
  [LSend "b" 1%nat; LSend "a" 0%nat] ++ turns 9 1 ++ turns 9 0
    ++ [LMain; LMain; LMain].

Lemma mutex_excludes_on_sample :
  mu <$> sample_run Background two_targets storing_schedule = Some true /\
  exists s, sample_run Background two_targets storing_schedule = Some s /\
    exists w pc, workers s !! w = Some pc /\ in_critical_section pc.
Proof.
  assert (Hm : mu <$> sample_run Background two_targets storing_schedule
               = Some true) by (vm_compute; reflexivity).
  split; [exact Hm|].
  apply fmap_Some in Hm as (s & E & Hs). exists s. split; [exact E|].
  exact (proj1 (proj2 (sample_theorem (@mutex_excludes)
                         Background two_targets storing_schedule s E))
           (eq_sym Hs)).
Defined.

Lemma every_target_probed_once_on_sample :
  main <$> sample_run Background two_targets overtaking_schedule = Some MReturned /\
  exists s, sample_run Background two_targets overtaking_schedule = Some s /\
    (connects s).*2 ≡ₚ (map_to_list two_targets).*2.
Proof.
  assert (Hm : main <$> sample_run Background two_targets overtaking_schedule
               = Some MReturned) by (vm_compute; reflexivity).
  split; [exact Hm|].
  apply fmap_Some in Hm as (s & E & Hs). exists s. split; [exact E|].
  exact (proj2 (proj2 (sample_theorem (@every_target_probed_once)
                         Background two_targets overtaking_schedule s E))
           (or_intror (eq_sym Hs))).
Defined.

Lemma waitgroup_counter_on_sample :
  wg <$> sample_run Background two_targets storing_schedule = Some 2 /\
  exists s, sample_run Background two_targets storing_schedule = Some s /\
    0 <= wg s.
Proof.
  assert (Hm : wg <$> sample_run Background two_targets storing_schedule
               = Some 2) by (vm_compute; reflexivity).
  split; [exact Hm|].
  apply fmap_Some in Hm as (s & E & Hs). exists s. split; [exact E|].
  exact (proj1 (sample_theorem (@waitgroup_counter)
                  Background two_targets storing_schedule s E)).
Defined.

Lemma results_only_grow_on_sample :
  exists s1 s2,
    sample_run Background two_targets storing_schedule = Some s1 /\
    sample_theorem (@steps) Background (Z.of_nat (size two_targets))
      (drop 5 overtaking_schedule) s1 = Some s2 /\
    targetresults s1 ⊆ targetresults s2.
Proof.
  eexists. eexists.
  split; [vm_compute; reflexivity|]. split; [vm_compute; reflexivity|].
  refine (proj1 (sample_theorem (@results_only_grow) Background two_targets
                   storing_schedule (drop 5 overtaking_schedule) _ _ _ _));
    vm_compute; reflexivity.
Defined.

Lemma workers_all_exit_on_sample :
  exists s,
    sample_run Background two_targets
      (overtaking_schedule ++ [LWorker 0%nat; LWorker 1%nat]) = Some s /\
    finished s.
Proof.
  assert (Hm : main <$> sample_run Background two_targets
                 (overtaking_schedule ++ [LWorker 0%nat; LWorker 1%nat])
               = Some MReturned) by (vm_compute; reflexivity).
  apply fmap_Some in Hm as (s & E & Hs). exists s. split; [exact E|].
  apply (proj2 (proj2 (sample_theorem (@workers_all_exit) Background two_targets)
                  _ s E)).
  vm_compute. reflexivity.
Defined.

Lemma outcome_independent_of_schedule_on_sample :
  main <$> sample_run Background two_targets overtaking_schedule = Some MReturned /\
  main <$> sample_run Background two_targets in_turn_schedule = Some MReturned /\
  testkeys <$> sample_run Background two_targets overtaking_schedule
    = testkeys <$> sample_run Background two_targets in_turn_schedule.
Proof.
  assert (H1 : main <$> sample_run Background two_targets overtaking_schedule
               = Some MReturned) by (vm_compute; reflexivity).
  assert (H2 : main <$> sample_run Background two_targets in_turn_schedule
               = Some MReturned) by (vm_compute; reflexivity).
  split; [exact H1|]. split; [exact H2|].
  apply fmap_Some in H1 as (s1 & E1 & Hs1).
  apply fmap_Some in H2 as (s2 & E2 & Hs2).
  rewrite E1, E2. simpl. f_equal.
  exact (proj1 (sample_theorem (@outcome_independent_of_schedule)
                  Background two_targets overtaking_schedule in_turn_schedule
                  s1 s2 E1 (eq_sym Hs1) E2 (eq_sym Hs2))).
Defined.

Lemma progress_agrees_with_results_on_sample :
  main <$> sample_run Background two_targets overtaking_schedule = Some MReturned /\
  exists s, sample_run Background two_targets overtaking_schedule = Some s /\
    (progress s).*2 ≡ₚ message_of_record <$> (map_to_list (targetresults s)).*2.
Proof.
  assert (Hm : main <$> sample_run Background two_targets overtaking_schedule
               = Some MReturned) by (vm_compute; reflexivity).
  split; [exact Hm|].
  apply fmap_Some in Hm as (s & E & Hs). exists s. split; [exact E|].
  exact (sample_theorem (@progress_agrees_with_results)
           Background two_targets overtaking_schedule s E (or_intror (eq_sym Hs))).
Defined.

Lemma progress_fractions_in_range_on_sample :
  0 < Z.of_nat (size two_targets) /\
  Z.of_nat (size two_targets) <= max_int64 /\
  exists s, sample_run Background two_targets storing_schedule = Some s /\
    0 <= completed s <= 2.
Proof.
  assert (H0 : 0 < Z.of_nat (size two_targets)) by (vm_compute; reflexivity).
  assert (H1 : Z.of_nat (size two_targets) <= max_int64)
    by (vm_compute; discriminate).
  split; [exact H0|]. split; [exact H1|].
  assert (Hm : mu <$> sample_run Background two_targets storing_schedule
               = Some true) by (vm_compute; reflexivity).
  apply fmap_Some in Hm as (s & E & _). exists s. split; [exact E|].
  exact (proj1 (sample_theorem (@progress_fractions_in_range)
                  Background two_targets H0 H1 storing_schedule s E)).
Defined.

(** Templates that tell which one was called by the bytes they count. *)
Definition sample_dispatch : Context -> TorTarget -> (Z * Z) * error :=
  defaultFlexibleConnect (Handler := unit) (Time := Z)
    (fun _ _ => ((1, 1), None)) (fun _ _ => ((2, 2), None))
    (fun _ _ => ((3, 3), None)) (fun _ _ => ((4, 4), Some "connection_refused"))
    0 tt "/tmp" "*/*" "en-US" "miniooni/0.1.0"
    (fun scheme host path => scheme +:+ "://" +:+ host +:+ path).

Definition target_d : TorTarget := mkTorTarget "192.0.2.1:443" "snowflake" ∅.

Definition one_unknown_target : gmap string TorTarget := {["d" := target_d]}.

Definition single_schedule : list Label :=
  [LSend "d" 0%nat] ++ turns 9 0 ++ [LMain; LMain; LMain].

Lemma unknown_protocol_is_measured_by_tcp_on_sample :
  exists s,
    measureTargets (Results := Z * Z) fst snd
      (fun _ => tt) (fun _ => tt) (fun _ => tt) (fun _ => tt) (fun _ => tt)
      sample_dispatch Background one_unknown_target single_schedule = Some s /\
    Failure <$> targetresults s !! "d" = Some (Some "connection_refused").
Proof.
  eexists. split; [vm_compute; reflexivity|].
  rewrite (proj1 (unknown_protocol_is_measured_by_tcp (Handler := unit) (Time := Z)
                    fst snd
                    (fun _ => tt) (fun _ => tt) (fun _ => tt) (fun _ => tt)
                    (fun _ => tt)
                    (fun _ _ => ((1, 1), None)) (fun _ _ => ((2, 2), None))
                    (fun _ _ => ((3, 3), None))
                    (fun _ _ => ((4, 4), Some "connection_refused"))
                    0 tt "/tmp" "*/*" "en-US" "miniooni/0.1.0"
                    (fun scheme host path => scheme +:+ "://" +:+ host +:+ path)
                    Background one_unknown_target single_schedule _ "d" target_d
                    ltac:(vm_compute; reflexivity) ltac:(vm_compute; reflexivity)
                    ltac:(vm_compute; reflexivity)
                    ltac:(discriminate) ltac:(discriminate) ltac:(discriminate))).
  reflexivity.
Defined.

End Tor.

(* ===================================================================== *)
(** * internal/orchestra/update/update.go *)
(* ===================================================================== *)

Module Update.

(** login.Auth, as far as Do reads it. *)
Record Auth := mkAuth { Token : string }.

Section Do.

(** [Metadata] is metadata.Metadata; [Ctx] is context.Context. *)
Context {Ctx Metadata : Type}.

(** The fields of Config that describe the request; [CAuth = None] is
    the nil pointer. HTTPClient and Logger belong to the transport. *)
Record Config := mkConfig {
  CAuth : option Auth;
  BaseURL : string;
  ClientID : string;
  CMetadata : Metadata;
  UserAgent : string
}.

(** One call of jsonapi.Client.Update: the client's fields, the path
    and the request body. *)
Record UpdateCall := mkUpdateCall {
  Authorization : string;
  callBaseURL : string;
  callUserAgent : string;
  urlpath : string;
  request : Metadata
}.

(** The transport: its answer may depend on the calls made before. *)
Variable jsonapi_Update : list UpdateCall -> Ctx -> UpdateCall -> error.

(** func Do(ctx, config) error, over the log of calls made. *)
Definition Do (ctx : Ctx) (config : Config) (log : list UpdateCall)
    : error * list UpdateCall :=
  match CAuth config with
  | None => (Some "config.Auth is nil", log)
  | Some auth =>
      let call :=
        {| Authorization := "Bearer " +:+ Token auth;
           callBaseURL := BaseURL config;
           callUserAgent := UserAgent config;
           urlpath := "/api/v1/update/" +:+ ClientID config;
           request := CMetadata config |} in
      (jsonapi_Update log ctx call, log ++ [call])
  end.

(** Do sends nothing without credentials and exactly one request with
    them: without Auth it returns "config.Auth is nil" and the transport is
    not called; with Auth the transport is called once, with the bearer
    token, the path /api/v1/update/<ClientID> and the metadata of the
    configuration, and its answer is what Do returns. *)
Theorem do_needs_auth :
  forall ctx config log,
    (CAuth config = None -> Do ctx config log = (Some "config.Auth is nil", log)) /\
    (forall auth, CAuth config = Some auth ->
       exists call,
         Do ctx config log = (jsonapi_Update log ctx call, log ++ [call]) /\
         Authorization call = "Bearer " +:+ Token auth /\
         urlpath call = "/api/v1/update/" +:+ ClientID config /\
         request call = CMetadata config /\
         callBaseURL call = BaseURL config /\
         callUserAgent call = UserAgent config).
Proof.
  intros ctx config log. unfold Do. split.
  - by intros ->.
  - intros auth ->. eexists. repeat split.
Qed.

End Do.

Definition sample_transport (log : list (UpdateCall (Metadata := string)))
    (ctx : unit) (call : UpdateCall (Metadata := string)) : error := None.

Definition sample_config : Config (Metadata := string) :=
  mkConfig (Some (mkAuth "s3cr3t")) "https://orchestrate.ooni.io" "abc-123"
    "probe metadata" "ooniprobe-engine/0.1.0".

Lemma do_needs_auth_on_sample :
  CAuth sample_config = Some (mkAuth "s3cr3t") /\
  exists call,
    Do sample_transport tt sample_config [] = (None, [call]) /\
    Authorization call = "Bearer s3cr3t" /\
    urlpath call = "/api/v1/update/abc-123".
Proof.
  split; [reflexivity|].
  destruct (proj2 (do_needs_auth sample_transport tt sample_config [])
              (mkAuth "s3cr3t") eq_refl)
    as (call & Hdo & Ha & Hu & _).
  exists call. split; [exact Hdo|]. split; [exact Ha|exact Hu].
Defined.

End Update.
